(** * Angular compiler core: directive-metadata flattening, template position
      lookup and translation-message serialization.

    Shallow embedding of
      - packages/compiler-cli/src/ngtsc/metadata/src/inheritance.ts
      - the language-service position visitor (findNodeAtPosition, R3Visitor,
        ExpressionVisitor, getSpanIncludingEndTag, isWithin)
      - serializeTranslationMessage
    together with the properties stated about them. *)

From stdpp Require Import gmap strings list fin_maps.
From Stdlib Require Import ZArith.

Local Open Scope Z_scope.
Set Warnings "-register-all,-clear-no-such-hyp".

(* ===================================================================== *)
(** * Directive metadata flattener (inheritance.ts)                        *)
(* ===================================================================== *)

Module Inheritance.

(** A [Reference<ClassDeclaration>]: the referenced class node and the name
    used in diagnostics. *)
Record Reference := mkReference {
  node : positive;
  debugName : string
}.

(** The three shapes of [DirectiveMeta.baseClass]:
    [null], the sentinel ['dynamic'], or a reference to the base class. *)
Inductive BaseClass :=
| NoBase
| Dynamic
| Base (r : Reference).

(** Modelled from the spec: [ClassPropertyMapping] (property_mapping.ts) lies
    outside the files embedded here. The spec describes it as a mapping
    between declared property names and public names, merged with
    right-biased semantics: on a key collision the entry of the second
    argument wins. *)
Module ClassPropertyMapping.
Definition empty : gmap string string := ∅.
Definition merge (a b : gmap string string) : gmap string string := b ∪ a.
End ClassPropertyMapping.

(** Modelled from the spec: the [DirectiveMeta] interface (api.ts) lies outside
    the files embedded here; the fields below are the ones the flattener
    reads or writes, plus [ref], [name] and [selector] standing for the
    remaining fields that the object spread copies untouched. *)
Record DirectiveMeta := mkDirectiveMeta {
  ref : Reference;
  name : string;
  selector : option string;
  inputs : gmap string string;
  outputs : gmap string string;
  coercedInputFields : gset string;
  undeclaredInputFields : gset string;
  restrictedInputFields : gset string;
  stringLiteralInputFields : gset string;
  baseClass : BaseClass
}.

(** [MetadataReader.getDirectiveMetadata]: [None] is the reader's [null]. *)
Definition MetadataReader := Reference -> option DirectiveMeta.

(** The mutable locals captured by the [addMetadata] closure. *)
Record Locals := mkLocals {
  l_coercedInputFields : gset string;
  l_undeclaredInputFields : gset string;
  l_restrictedInputFields : gset string;
  l_stringLiteralInputFields : gset string;
  l_isDynamic : bool;
  l_inputs : gmap string string;
  l_outputs : gmap string string
}.

(** The state of the locals right before [addMetadata(topMeta)]. *)
Definition initialLocals : Locals :=
  {| l_coercedInputFields := ∅;
     l_undeclaredInputFields := ∅;
     l_restrictedInputFields := ∅;
     l_stringLiteralInputFields := ∅;
     l_isDynamic := false;
     l_inputs := ClassPropertyMapping.empty;
     l_outputs := ClassPropertyMapping.empty |}.

Definition setDynamic (s : Locals) : Locals :=
  {| l_coercedInputFields := l_coercedInputFields s;
     l_undeclaredInputFields := l_undeclaredInputFields s;
     l_restrictedInputFields := l_restrictedInputFields s;
     l_stringLiteralInputFields := l_stringLiteralInputFields s;
     l_isDynamic := true;
     l_inputs := l_inputs s;
     l_outputs := l_outputs s |}.

(** [for (const f of src) dst.add(f)] *)
Definition addFields (dst src : gset string) : gset string :=
  set_fold (fun f acc => {[ f ]} ∪ acc) dst src.

(** The second half of [addMetadata]: merge this level's mappings into the
    accumulators and add its field sets. *)
Definition mergeLevel (meta : DirectiveMeta) (s : Locals) : Locals :=
  {| l_coercedInputFields :=
       addFields (l_coercedInputFields s) (coercedInputFields meta);
     l_undeclaredInputFields :=
       addFields (l_undeclaredInputFields s) (undeclaredInputFields meta);
     l_restrictedInputFields :=
       addFields (l_restrictedInputFields s) (restrictedInputFields meta);
     l_stringLiteralInputFields :=
       addFields (l_stringLiteralInputFields s) (stringLiteralInputFields meta);
     l_isDynamic := l_isDynamic s;
     l_inputs := ClassPropertyMapping.merge (l_inputs s) (inputs meta);
     l_outputs := ClassPropertyMapping.merge (l_outputs s) (outputs meta) |}.

(** [addMetadata]. The recursion follows the base-class references through
    the reader, which need not be well founded; [fuel] bounds the depth and
    [None] means the bound was reached. *)
Fixpoint addMetadata (fuel : nat) (reader : MetadataReader)
    (meta : DirectiveMeta) (s : Locals) : option Locals :=
  match fuel with
  | O => None
  | S fuel' =>
    let afterBase :=
      match baseClass meta with
      | Dynamic => Some (setDynamic s)
      | Base b =>
        match reader b with
        | Some baseMeta => addMetadata fuel' reader baseMeta s
        | None => Some (setDynamic s)
        end
      | NoBase => Some s
      end in
    match afterBase with
    | Some s' => Some (mergeLevel meta s')
    | None => None
    end
  end.

(** What a call of the flattener does: return a record, throw, or exceed the
    recursion bound of the model. *)
Inductive Outcome :=
| Returned (m : DirectiveMeta)
| Thrown (message : string)
| OutOfFuel.

Definition flattenInheritedDirectiveMetadata (fuel : nat)
    (reader : MetadataReader) (dir : Reference) : Outcome :=
  match reader dir with
  | None => Thrown ("Metadata not found for directive: " +:+ debugName dir)
  | Some topMeta =>
    match baseClass topMeta with
    | NoBase => Returned topMeta
    | _ =>
      match addMetadata fuel reader topMeta initialLocals with
      | None => OutOfFuel
      | Some s =>
        Returned
          {| ref := ref topMeta;
             name := name topMeta;
             selector := selector topMeta;
             inputs := l_inputs s;
             outputs := l_outputs s;
             coercedInputFields := l_coercedInputFields s;
             undeclaredInputFields := l_undeclaredInputFields s;
             restrictedInputFields := l_restrictedInputFields s;
             stringLiteralInputFields := l_stringLiteralInputFields s;
             baseClass := if l_isDynamic s then Dynamic else NoBase |}
      end
    end
  end.

(** ** Inheritance chains as seen through a reader *)

(** [Resolvable reader m levels]: starting at [m], every base-class
    reference is answered by the reader until a class without base class is
    reached; [levels] lists the metadata met, most derived first. *)
Inductive Resolvable (reader : MetadataReader) :
    DirectiveMeta -> list DirectiveMeta -> Prop :=
| Resolvable_root m :
    baseClass m = NoBase -> Resolvable reader m [m]
| Resolvable_step m b bm levels :
    baseClass m = Base b -> reader b = Some bm ->
    Resolvable reader bm levels -> Resolvable reader m (m :: levels).

(** [Broken reader m]: somewhere on the chain starting at [m] a level has
    base class ['dynamic'], or the reader has no metadata for a referenced
    base class. *)
Inductive Broken (reader : MetadataReader) : DirectiveMeta -> Prop :=
| Broken_dynamic m :
    baseClass m = Dynamic -> Broken reader m
| Broken_missing m b :
    baseClass m = Base b -> reader b = None -> Broken reader m
| Broken_above m b bm :
    baseClass m = Base b -> reader b = Some bm ->
    Broken reader bm -> Broken reader m.

(** The specification's reading of the merged mappings: fold the levels from
    the base end towards the directive, the later (more derived) argument
    of each merge winning. [levels] is most derived first. *)
Definition mergedMapping (ms : list (gmap string string)) : gmap string string :=
  foldr (fun m acc => ClassPropertyMapping.merge acc m) ClassPropertyMapping.empty ms.

(** The entry for [k] of the first (most derived) level that declares [k]. *)
Fixpoint firstDeclared (k : string) (ms : list (gmap string string)) : option string :=
  match ms with
  | [] => None
  | m :: rest =>
    match m !! k with
    | Some v => Some v
    | None => firstDeclared k rest
    end
  end.

(** [Walk reader m levels dynamic]: the walk that [addMetadata] makes from
    [m]. [levels] are the records it reaches, most derived first; it stops
    at a class without base class ([dynamic = false]) or at a level whose
    base class is ['dynamic'] or unknown to the reader ([dynamic = true]). *)
Inductive Walk (reader : MetadataReader) :
    DirectiveMeta -> list DirectiveMeta -> bool -> Prop :=
| Walk_root m :
    baseClass m = NoBase -> Walk reader m [m] false
| Walk_dynamic m :
    baseClass m = Dynamic -> Walk reader m [m] true
| Walk_missing m b :
    baseClass m = Base b -> reader b = None -> Walk reader m [m] true
| Walk_step m b bm levels dynamic :
    baseClass m = Base b -> reader b = Some bm ->
    Walk reader bm levels dynamic -> Walk reader m (m :: levels) dynamic.

(** [Climbs reader n m]: from [m] the reader answers at least [n] base-class
    references in a row. *)
Fixpoint Climbs (reader : MetadataReader) (n : nat) (m : DirectiveMeta) : Prop :=
  match n with
  | O => True
  | S n' =>
    exists b bm, baseClass m = Base b /\ reader b = Some bm /\ Climbs reader n' bm
  end.

End Inheritance.

(* ===================================================================== *)
(** * Position resolver (findNodeAtPosition)                               *)
(* ===================================================================== *)

Module PositionResolver.

(** Source offsets are non-negative integers held in JavaScript numbers;
    subtraction and comparison on them are exact, so they are modelled in
    [Z]. *)

Record ParseLocation := mkParseLocation { offset : Z }.

(** [ParseSourceSpan]: both ends are locations. *)
Record ParseSourceSpan := mkParseSourceSpan {
  ps_start : ParseLocation;
  ps_end : ParseLocation
}.

(** [AbsoluteSourceSpan], and every plain [{start, end}] object: both ends
    are numbers. *)
Record AbsoluteSourceSpan := mkAbsoluteSourceSpan {
  abs_start : Z;
  abs_end : Z
}.

(** The argument type of [isWithin], [AbsoluteSourceSpan|ParseSourceSpan]. *)
Inductive Span :=
| Parse (span : ParseSourceSpan)
| Absolute (span : AbsoluteSourceSpan).

(** Modelled from the spec: the expression AST classes and
    [RecursiveAstVisitor] (expression_parser/ast.ts) lie outside the files
    embedded here. An expression node carries an absolute source span;
    [ImplicitReceiver] is the synthetic receiver, [ASTWithSource] wraps the
    expression of a binding, and every other expression kind visits its
    sub-expressions in order through the visitor's [visit]. *)
Inductive AST :=
| ImplicitReceiver (sourceSpan : AbsoluteSourceSpan)
| ASTWithSource (ast : AST) (sourceSpan : AbsoluteSourceSpan)
| Expression (kind : string) (operands : list AST) (sourceSpan : AbsoluteSourceSpan).

Definition AST_sourceSpan (node : AST) : AbsoluteSourceSpan :=
  match node with
  | ImplicitReceiver sp => sp
  | ASTWithSource _ sp => sp
  | Expression _ _ sp => sp
  end.

(** Modelled from the spec: [utils.ts] lies outside the files embedded here.
    A key/value-shaped template node is one that carries a key span and
    possibly a value span. *)
Record KeyAndValue := mkKeyAndValue {
  keySpan : ParseSourceSpan;
  valueSpan : option ParseSourceSpan
}.

(** Modelled from the spec: the template AST classes (render3/r3_ast.ts) lie
    outside the files embedded here. The node kinds are the ones the
    visitor has a method for; each constructor lists the fields those
    methods read ([Variable_] is the class [Variable], a reserved word
    here). [Icu] holds [Object.values(icu.vars)] and
    [Object.values(icu.placeholders)] in iteration order. *)
Inductive Node :=
| Element (name : string)
    (attributes inputs outputs references children : list Node)
    (sourceSpan : ParseSourceSpan) (endSourceSpan : option ParseSourceSpan)
| Template (tagName : string)
    (attributes inputs outputs templateAttrs references variables children : list Node)
    (sourceSpan : ParseSourceSpan) (endSourceSpan : option ParseSourceSpan)
| Content (selector : string) (attributes : list Node)
    (sourceSpan : ParseSourceSpan)
| Variable_ (name : string) (sourceSpan : ParseSourceSpan)
    (kv : option KeyAndValue)
| Reference (name : string) (sourceSpan : ParseSourceSpan)
    (kv : option KeyAndValue)
| TextAttribute (name : string) (sourceSpan : ParseSourceSpan)
    (kv : option KeyAndValue)
| BoundAttribute (name : string) (value : AST) (sourceSpan : ParseSourceSpan)
    (kv : option KeyAndValue)
| BoundEvent (name : string) (handler : AST) (sourceSpan : ParseSourceSpan)
    (kv : option KeyAndValue)
| Text (value : string) (sourceSpan : ParseSourceSpan)
| BoundText (value : AST) (sourceSpan : ParseSourceSpan)
| Icu (vars placeholders : list Node) (sourceSpan : ParseSourceSpan).

Definition Node_sourceSpan (node : Node) : ParseSourceSpan :=
  match node with
  | Element _ _ _ _ _ _ sp _ => sp
  | Template _ _ _ _ _ _ _ _ sp _ => sp
  | Content _ _ sp => sp
  | Variable_ _ sp _ => sp
  | Reference _ sp _ => sp
  | TextAttribute _ sp _ => sp
  | BoundAttribute _ _ sp _ => sp
  | BoundEvent _ _ sp _ => sp
  | Text _ sp => sp
  | BoundText _ sp => sp
  | Icu _ _ sp => sp
  end.

(** [ast.endSourceSpan] when [ast] is an [Element] or a [Template]. *)
Definition Node_endSourceSpan (node : Node) : option ParseSourceSpan :=
  match node with
  | Element _ _ _ _ _ _ _ esp => esp
  | Template _ _ _ _ _ _ _ _ _ esp => esp
  | _ => None
  end.

(** An entry of the visitor's path, [t.Node|e.AST]. *)
Inductive PathEntry :=
| TemplateNode (node : Node)
| ExpressionNode (node : AST).

Definition Path := list PathEntry.

(** [isTemplateNode] of utils.ts. *)
Definition isTemplateNode (entry : PathEntry) : bool :=
  match entry with
  | TemplateNode _ => true
  | ExpressionNode _ => false
  end.

(** [isTemplateNodeWithKeyAndValue] of utils.ts, returning the key and value
    spans the caller destructures. *)
Definition isTemplateNodeWithKeyAndValue (entry : PathEntry) : option KeyAndValue :=
  match entry with
  | TemplateNode (Variable_ _ _ kv) => kv
  | TemplateNode (Reference _ _ kv) => kv
  | TemplateNode (TextAttribute _ _ kv) => kv
  | TemplateNode (BoundAttribute _ _ _ kv) => kv
  | TemplateNode (BoundEvent _ _ _ kv) => kv
  | _ => None
  end.

Definition isWithin (position : Z) (span : Span) : bool :=
  let '(start, end_) :=
    match span with
    | Parse span => (offset (ps_start span), offset (ps_end span))
    | Absolute span => (abs_start span, abs_end span)
    end in
  (start <=? position) && (position <=? end_).

Definition getSpanIncludingEndTag (ast : Node) : AbsoluteSourceSpan :=
  let result :=
    {| abs_start := offset (ps_start (Node_sourceSpan ast));
       abs_end := offset (ps_end (Node_sourceSpan ast)) |} in
  match ast with
  | Element _ _ _ _ _ _ _ (Some endSourceSpan)
  | Template _ _ _ _ _ _ _ _ _ (Some endSourceSpan) =>
    {| abs_start := abs_start result;
       abs_end := offset (ps_end endSourceSpan) |}
  | _ => result
  end.

(** The span [visit] compares against for the last path entry. *)
Definition entrySpan (last : PathEntry) : AbsoluteSourceSpan :=
  match last with
  | TemplateNode n => getSpanIncludingEndTag n
  | ExpressionNode e => AST_sourceSpan e
  end.

Section Visitors.
(** [this.position], fixed at construction. *)
Variable position : Z.

(** ** ExpressionVisitor *)

Definition unwrapSource (node : AST) : AST :=
  match node with
  | ASTWithSource ast _ => ast
  | _ => node
  end.

Definition isImplicitReceiver (node : AST) : bool :=
  match node with
  | ImplicitReceiver _ => true
  | _ => false
  end.

(** [ExpressionVisitor.visit], with [node.visit(this, path)] left open. *)
Definition visitWith (AST_visit : AST -> Path -> Path)
    (node : AST) (path : Path) : Path :=
  let node := unwrapSource node in
  if isWithin position (Absolute (AST_sourceSpan node))
     && negb (isImplicitReceiver node)
  then AST_visit node (path ++ [ExpressionNode node])
  else path.

(** [node.visit(this, path)] for an expression node: the method of
    [RecursiveAstVisitor] for the node's kind, which passes every operand
    to [this.visit]. *)
Fixpoint AST_visit (node : AST) (path : Path) {struct node} : Path :=
  match node with
  | ImplicitReceiver _ => path
  | ASTWithSource ast _ => AST_visit ast path
  | Expression _ operands _ =>
    fold_left (fun path operand => visitWith AST_visit operand path)
      operands path
  end.

(** [ExpressionVisitor.visit] *)
Definition ExpressionVisitor_visit (node : AST) (path : Path) : Path :=
  visitWith AST_visit node path.

(** ** R3Visitor *)

Section Methods.
(** [this.visit], tied by the fixpoint below. *)
Variable visit : Node -> Path -> Path.

Definition visitAll (nodes : list Node) (path : Path) : Path :=
  fold_left (fun path node => visit node path) nodes path.

Definition visitElement (attributes inputs outputs references children : list Node)
    (path : Path) : Path :=
  let path := visitAll attributes path in
  let path := visitAll inputs path in
  let path := visitAll outputs path in
  let path := visitAll references path in
  visitAll children path.

Definition visitTemplate
    (attributes inputs outputs templateAttrs references variables children : list Node)
    (path : Path) : Path :=
  let path := visitAll attributes path in
  let path := visitAll inputs path in
  let path := visitAll outputs path in
  let path := visitAll templateAttrs path in
  let path := visitAll references path in
  let path := visitAll variables path in
  visitAll children path.

(** [t.visitAll(this, content.attributes)]: the module-level [visitAll] of
    r3_ast.ts hands each node to [this.visit]; the attributes of a [Content]
    node are text attributes, whose own visitor method does nothing. *)
Definition visitContent (attributes : list Node) (path : Path) : Path :=
  visitAll attributes path.

Definition visitBoundAttribute (value : AST) (path : Path) : Path :=
  ExpressionVisitor_visit value path.

(** [n instanceof t.BoundAttribute && event.name === n.name + 'Change'] *)
Definition pairsWith (eventName : string) (n : PathEntry) : bool :=
  match n with
  | TemplateNode (BoundAttribute name _ _ _) =>
    bool_decide (eventName = name +:+ "Change")
  | _ => false
  end.

(** [this.path.some(...)] in [visitBoundEvent]. *)
Definition isTwoWayBinding (eventName : string) (path : Path) : bool :=
  existsb (pairsWith eventName) path.

Definition visitBoundEvent (name : string) (handler : AST) (path : Path) : Path :=
  if isTwoWayBinding name path then removelast path
  else ExpressionVisitor_visit handler path.

Definition visitBoundText (value : AST) (path : Path) : Path :=
  ExpressionVisitor_visit value path.

Definition visitIcu (vars placeholders : list Node) (path : Path) : Path :=
  let path := fold_left (fun path boundText => visit boundText path) vars path in
  fold_left (fun path boundTextOrText => visit boundTextOrText path) placeholders path.

(** [node.visit(this)]: the dispatch to the method of the node's kind. *)
Definition Node_visit (node : Node) (path : Path) : Path :=
  match node with
  | Element _ attributes inputs outputs references children _ _ =>
    visitElement attributes inputs outputs references children path
  | Template _ attributes inputs outputs templateAttrs references variables children _ _ =>
    visitTemplate attributes inputs outputs templateAttrs references variables children path
  | Content _ attributes _ => visitContent attributes path
  | Variable_ _ _ _ => path
  | Reference _ _ _ => path
  | TextAttribute _ _ _ => path
  | BoundAttribute _ value _ _ => visitBoundAttribute value path
  | BoundEvent name handler _ _ => visitBoundEvent name handler path
  | Text _ _ => path
  | BoundText value _ => visitBoundText value path
  | Icu vars placeholders _ => visitIcu vars placeholders path
  end.

(** The early [return] of [visit]: there is a last path entry and the
    current node's span is longer than that entry's span. *)
Definition largerThanLast (node : Node) (path : Path) : bool :=
  let span := getSpanIncludingEndTag node in
  let length := abs_end span - abs_start span in
  match last path with
  | Some last =>
    let lastSpan := entrySpan last in
    let lastLength := abs_end lastSpan - abs_start lastSpan in
    length >? lastLength
  | None => false
  end.
End Methods.

(** [R3Visitor.visit] *)
Fixpoint visit (node : Node) (path : Path) {struct node} : Path :=
  if isWithin position (Absolute (getSpanIncludingEndTag node)) then
    if largerThanLast node path then path
    else Node_visit visit node (path ++ [TemplateNode node])
  else path.

End Visitors.

(** [visitor.path[visitor.path.length - 1]] after [visitor.visitAll(ast)]. *)
Definition candidateAt (ast : list Node) (position : Z) : option PathEntry :=
  last (visitAll (visit position) ast []).

Definition findNodeAtPosition (ast : list Node) (position : Z) : option PathEntry :=
  match candidateAt ast position with
  | None => None
  | Some candidate =>
    match isTemplateNodeWithKeyAndValue candidate with
    | Some {| keySpan := keySpan; valueSpan := valueSpan |} =>
      if negb (isWithin position (Parse keySpan))
         && match valueSpan with
            | Some valueSpan => negb (isWithin position (Parse valueSpan))
            | None => false
            end
      then None
      else Some candidate
    | None => Some candidate
    end
  end.

(** ** Notions used to state the properties *)

Definition spanLength (span : AbsoluteSourceSpan) : Z :=
  abs_end span - abs_start span.

(** The span the resolver tests for [node] contains [position]. *)
Definition contains (position : Z) (node : Node) : bool :=
  isWithin position (Absolute (getSpanIncludingEndTag node)).

Definition entryContains (position : Z) (entry : PathEntry) : bool :=
  isWithin position (Absolute (entrySpan entry)).

(** The template nodes directly below [node], in the order its visitor
    method passes them to [visit]. *)
Definition subNodes (node : Node) : list Node :=
  match node with
  | Element _ attributes inputs outputs references children _ _ =>
    attributes ++ inputs ++ outputs ++ references ++ children
  | Template _ attributes inputs outputs templateAttrs references variables children _ _ =>
    attributes ++ inputs ++ outputs ++ templateAttrs ++ references
      ++ variables ++ children
  | Content _ attributes _ => attributes
  | Icu vars placeholders _ => vars ++ placeholders
  | _ => []
  end.

(** [node] is a bound event whose two-way partner is already on [path]. *)
Definition pairedEvent (node : Node) (path : Path) : bool :=
  match node with
  | BoundEvent name _ _ _ => isTwoWayBinding name path
  | _ => false
  end.

Definition Span_start (span : Span) : Z :=
  match span with
  | Parse span => offset (ps_start span)
  | Absolute span => abs_start span
  end.

Definition Span_end (span : Span) : Z :=
  match span with
  | Parse span => offset (ps_end span)
  | Absolute span => abs_end span
  end.

(** [f] only appends to the path, and what it appends are entries whose span
    contains [position]. *)
Definition Extends (position : Z) (f : Path -> Path) : Prop :=
  forall path, exists ext,
    f path = path ++ ext /\ Forall (fun e => entryContains position e = true) ext.

(** [f] only appends to the path, and what it appends satisfies [Q]. *)
Definition Appends (Q : PathEntry -> Prop) (f : Path -> Path) : Prop :=
  forall path, exists ext, f path = path ++ ext /\ Forall Q ext.

(** What can be said of an entry the visitors push: a template node whose
    tested span contains [position], or an expression whose span contains
    [position] and that is not the implicit receiver. *)
Definition Reported (position : Z) (entry : PathEntry) : Prop :=
  match entry with
  | TemplateNode node => contains position node = true
  | ExpressionNode node =>
    isWithin position (Absolute (AST_sourceSpan node)) = true /\
    isImplicitReceiver node = false
  end.

(** The node kinds whose visitor method passes sub-nodes to [visit]. *)
Definition isContainer (node : Node) : bool :=
  match node with
  | Element _ _ _ _ _ _ _ _ | Template _ _ _ _ _ _ _ _ _ _
  | Content _ _ _ | Icu _ _ _ => true
  | _ => false
  end.

Definition isBoundAttribute (entry : PathEntry) : bool :=
  match entry with
  | TemplateNode (BoundAttribute _ _ _ _) => true
  | _ => false
  end.


(** The skip rule in the specification's words: a candidate whose span
    contains the offset but is not strictly smaller than the span of the
    last match on the path is not descended into. *)
Definition skipsUnlessStrictlySmaller : Prop :=
  forall position node path lastEntry,
    last path = Some lastEntry ->
    contains position node = true ->
    ~ (spanLength (getSpanIncludingEndTag node) < spanLength (entrySpan lastEntry)) ->
    visit position node path = path.

End PositionResolver.

(* ===================================================================== *)
(** * Translation message serialization (serializeTranslationMessage)      *)
(* ===================================================================== *)

Module TranslationSerializer.

(** The completion of a JavaScript expression: a value, or a thrown value. *)
Inductive Completion (E A : Type) :=
| Normal (a : A)
| Throw (e : E).
Arguments Normal {E A} a.
Arguments Throw {E A} e.

Definition bind {E A B : Type} (c : Completion E A) (k : A -> Completion E B) :
    Completion E B :=
  match c with
  | Normal a => k a
  | Throw e => Throw e
  end.

Notation "'let*' x := c 'in' k" := (bind c (fun x => k))
  (at level 10, x name, c at level 100, k at level 200).

(** [try { body } catch (e) { handler }] where both blocks end in [return]. *)
Definition tryCatch {E A : Type} (body : Completion E A) (handler : E -> A) : A :=
  match body with
  | Normal a => a
  | Throw e => handler e
  end.

Section Serialize.
(** [Element] and [ParseError] of the compiler, [ɵParsedTranslation] of
    localize, the serializer's configuration and the serializer itself. *)
Variables Element HtmlNode ParseError ParsedTranslation : Type.
Variables MessageSerializerConfig MessageSerializer : Type.

(** Modelled from the spec: [parseInnerRange] (translation_utils.ts) lies
    outside the files embedded here. Parsing is recovering: it yields the
    root nodes together with the list of parse errors and never throws. *)
Variable parseInnerRange : Element -> list HtmlNode * list ParseError.

(** Modelled from the spec: [MessageSerializer] and [TargetMessageRenderer]
    lie outside the files embedded here. Constructing the serializer and
    rendering the nodes may each throw; the thrown value is what the
    [catch] clause stores in a [ParseError[]]. *)
Variable newMessageSerializer :
  MessageSerializerConfig -> Completion ParseError MessageSerializer.
Variable serialize :
  MessageSerializer -> list HtmlNode -> Completion ParseError ParsedTranslation.

Record SerializeResult := mkSerializeResult {
  translation : option ParsedTranslation;
  parseErrors : list ParseError;
  serializeErrors : list ParseError
}.

Definition serializeTranslationMessage (element : Element)
    (config : MessageSerializerConfig) : SerializeResult :=
  let '(rootNodes, parseErrors) := parseInnerRange element in
  tryCatch
    (let* serializer := newMessageSerializer config in
     let* translation := serialize serializer rootNodes in
     Normal {| translation := Some translation;
               parseErrors := parseErrors;
               serializeErrors := [] |})
    (fun e =>
       {| translation := None;
          parseErrors := parseErrors;
          serializeErrors := [e] |}).

(** The completion of the two statements of the [try] block. *)
Definition serialization (element : Element) (config : MessageSerializerConfig) :
    Completion ParseError ParsedTranslation :=
  let* serializer := newMessageSerializer config in
  serialize serializer (fst (parseInnerRange element)).

End Serialize.

Arguments translation {ParseError ParsedTranslation} _.
Arguments parseErrors {ParseError ParsedTranslation} _.
Arguments serializeErrors {ParseError ParsedTranslation} _.
Arguments mkSerializeResult {ParseError ParsedTranslation} _ _ _.

End TranslationSerializer.

(* ===================================================================== *)
(** * The async pipe (async_pipe.ts)                                       *)
(* ===================================================================== *)

Module AsyncPipe.
Import TranslationSerializer.

Section Pipe.
(** The values an observable or promise delivers; [None] is [null]. *)
Variable Value : Type.

(** What the pipe can tell about the object it is given. [ident] is the
    object's identity, the thing [===] compares. [hasThen] and
    [hasSubscribe] are the answers of [ɵisPromise] and [ɵisObservable]
    (from the core package), which test for a [then] and a [subscribe] method.
    [emitsAtOnce] lists the values the object hands to its callback before
    [subscribe] or [then] returns (a synchronous observable does that; a
    native promise never does). *)
Record AsyncObject := mkAsyncObject {
  ident : positive;
  hasThen : bool;
  hasSubscribe : bool;
  emitsAtOnce : list (option Value)
}.

(** What [createSubscription] returns: the subscription of an observable,
    or the promise that [then] chains. *)
Inductive Subscription :=
| ObservableSubscription (source : positive)
| ChainedPromise (source : positive).

(** The two instances of [SubscriptionStrategy]. *)
Inductive Strategy :=
| PromiseStrategy
| ObservableStrategy.

(** The calls the pipe makes on its collaborators. *)
Inductive Effect :=
| Subscribe (source : positive)
| Then (source : positive)
| Unsubscribe (source : positive)
| MarkForCheck.

Inductive PipeError :=
| InvalidPipeArgument (source : positive)
| TypeError.

(** The fields of the pipe, and the trace of the calls it has made. *)
Record State := mkState {
  _latestValue : option Value;
  _subscription : option Subscription;
  _obj : option AsyncObject;
  _strategy : option Strategy;
  trace : list Effect
}.

(** A method body: it runs on the fields and completes normally or throws,
    the fields keeping what was assigned before the throw. *)
Definition Action (A : Type) : Type := State -> State * Completion PipeError A.

Definition ret {A : Type} (a : A) : Action A := fun st => (st, Normal a).

Definition throw {A : Type} (e : PipeError) : Action A := fun st => (st, Throw e).

Definition andThen {A B : Type} (c : Action A) (k : A -> Action B) : Action B :=
  fun st =>
    match c st with
    | (st', Normal a) => k a st'
    | (st', Throw e) => (st', Throw e)
    end.

Definition emit (e : Effect) : Action unit := fun st =>
  (mkState (_latestValue st) (_subscription st) (_obj st) (_strategy st)
     (trace st ++ [e]), Normal tt).

Definition set_latestValue (v : option Value) : Action unit := fun st =>
  (mkState v (_subscription st) (_obj st) (_strategy st) (trace st), Normal tt).

Definition set_subscription (s : option Subscription) : Action unit := fun st =>
  (mkState (_latestValue st) s (_obj st) (_strategy st) (trace st), Normal tt).

Definition set_obj (o : option AsyncObject) : Action unit := fun st =>
  (mkState (_latestValue st) (_subscription st) o (_strategy st) (trace st), Normal tt).

Definition set_strategy (s : option Strategy) : Action unit := fun st =>
  (mkState (_latestValue st) (_subscription st) (_obj st) s (trace st), Normal tt).

(** [a === b] on two objects. *)
Definition sameObject (a b : AsyncObject) : bool :=
  bool_decide (ident a = ident b).

(** A pipe right after construction. *)
Definition newPipe : State := mkState None None None None [].

(** [_updateLatestValue] *)
Definition _updateLatestValue (async : AsyncObject) (value : option Value) :
    Action unit := fun st =>
  match _obj st with
  | Some current =>
    if sameObject async current
    then andThen (set_latestValue value) (fun _ => emit MarkForCheck) st
    else (st, Normal tt)
  | None => (st, Normal tt)
  end.

(** The object calling the callback it was given, once per value it has at
    once. *)
Fixpoint deliver (callback : option Value -> Action unit)
    (values : list (option Value)) : Action unit :=
  match values with
  | [] => ret tt
  | value :: rest => andThen (callback value) (fun _ => deliver callback rest)
  end.

(** [createSubscription] of the two strategies: [async.subscribe({next})]
    and [async.then(updateLatestValue, ...)]. *)
Definition createSubscription (strategy : Strategy) (async : AsyncObject)
    (updateLatestValue : option Value -> Action unit) : Action Subscription :=
  match strategy with
  | ObservableStrategy =>
    andThen (emit (Subscribe (ident async))) (fun _ =>
    andThen (deliver updateLatestValue (emitsAtOnce async)) (fun _ =>
    ret (ObservableSubscription (ident async))))
  | PromiseStrategy =>
    andThen (emit (Then (ident async))) (fun _ =>
    andThen (deliver updateLatestValue (emitsAtOnce async)) (fun _ =>
    ret (ChainedPromise (ident async))))
  end.

(** [this._strategy.dispose(this._subscription!)]: calling a method of
    [null] is a [TypeError]; the promise strategy's [dispose] does nothing;
    the observable strategy's calls [subscription.unsubscribe()]. *)
Definition dispose (strategy : option Strategy)
    (subscription : option Subscription) : Action unit :=
  match strategy with
  | None => throw TypeError
  | Some PromiseStrategy => ret tt
  | Some ObservableStrategy =>
    match subscription with
    | Some (ObservableSubscription source) => emit (Unsubscribe source)
    | Some (ChainedPromise _) => throw TypeError
    | None => throw TypeError
    end
  end.

(** [_selectStrategy] *)
Definition _selectStrategy (obj : AsyncObject) : Action Strategy :=
  if hasThen obj then ret PromiseStrategy
  else if hasSubscribe obj then ret ObservableStrategy
  else throw (InvalidPipeArgument (ident obj)).

(** [_subscribe] *)
Definition _subscribe (obj : AsyncObject) : Action unit :=
  andThen (set_obj (Some obj)) (fun _ =>
  andThen (_selectStrategy obj) (fun strategy =>
  andThen (set_strategy (Some strategy)) (fun _ =>
  andThen (createSubscription strategy obj (fun value => _updateLatestValue obj value))
    (fun subscription =>
  set_subscription (Some subscription))))).

(** [_dispose] *)
Definition _dispose : Action unit := fun st =>
  andThen (dispose (_strategy st) (_subscription st)) (fun _ =>
  andThen (set_latestValue None) (fun _ =>
  andThen (set_subscription None) (fun _ =>
  set_obj None))) st.

(** [ngOnDestroy] *)
Definition ngOnDestroy : Action unit := fun st =>
  match _subscription st with
  | Some _ => _dispose st
  | None => (st, Normal tt)
  end.

(** [obj !== this._obj] for a non-null [this._obj]. *)
Definition differs (obj : option AsyncObject) (current : AsyncObject) : bool :=
  match obj with
  | Some o => negb (sameObject o current)
  | None => true
  end.

(** [transform]. It calls itself after disposing; [fuel] bounds the depth of
    that recursion and [None] means the bound was reached. *)
Fixpoint transform (fuel : nat) (obj : option AsyncObject) (st : State) :
    option (State * Completion PipeError (option Value)) :=
  match fuel with
  | O => None
  | S fuel' =>
    match _obj st with
    | None =>
      match obj with
      | Some o =>
        Some (andThen (_subscribe o) (fun _ st' => (st', Normal (_latestValue st'))) st)
      | None => Some (st, Normal (_latestValue st))
      end
    | Some current =>
      if differs obj current then
        match _dispose st with
        | (st', Normal _) => transform fuel' obj st'
        | (st', Throw e) => Some (st', Throw e)
        end
      else Some (st, Normal (_latestValue st))
    end
  end.

(** ** Notions used to state the properties *)

(** The pipe is bound to nothing, or to an object through the strategy and
    the subscription that belong to it. *)
Definition Settled (st : State) : Prop :=
  match _obj st with
  | None => _latestValue st = None /\ _subscription st = None
  | Some o =>
    (hasThen o = true /\ _strategy st = Some PromiseStrategy /\
     _subscription st = Some (ChainedPromise (ident o))) \/
    (hasThen o = false /\ hasSubscribe o = true /\
     _strategy st = Some ObservableStrategy /\
     _subscription st = Some (ObservableSubscription (ident o)))
  end.

(** The object is a promise or an observable for [_selectStrategy]. *)
Definition accepted (o : AsyncObject) : bool := hasThen o || hasSubscribe o.

(** The strategy [_selectStrategy] picks for an accepted object, and the
    subscription [createSubscription] then returns. *)
Definition strategyOf (o : AsyncObject) : Strategy :=
  if hasThen o then PromiseStrategy else ObservableStrategy.

Definition subscriptionOf (o : AsyncObject) : Subscription :=
  if hasThen o then ChainedPromise (ident o) else ObservableSubscription (ident o).

(** The value the pipe holds once [_subscribe] is done: the last one the
    object delivered at once, if any. *)
Definition valueAtOnce (o : AsyncObject) : option Value :=
  default None (last (emitsAtOnce o)).

(** The calls [dispose] makes for the object the pipe is bound to. *)
Definition release (o : AsyncObject) : list Effect :=
  if hasThen o then [] else [Unsubscribe (ident o)].

(** The calls [_subscribe] makes for a promise or an observable. *)
Definition acquire (o : AsyncObject) : list Effect :=
  (if hasThen o then Then (ident o) else Subscribe (ident o))
    :: map (fun _ => MarkForCheck) (emitsAtOnce o).

(** The calls that unbind the pipe from whatever it is bound to. *)
Definition released (st : State) : list Effect :=
  match _obj st with
  | Some current => release current
  | None => []
  end.

(** The observable the pipe holds a subscription of. *)
Definition held (st : State) : list positive :=
  match _obj st with
  | Some current => if hasThen current then [] else [ident current]
  | None => []
  end.

(** One [unsubscribe] closes one subscription: the first open entry of
    [source] is removed, and only that one. *)
Fixpoint closeOne (source : positive) (opened : list positive) : list positive :=
  match opened with
  | [] => []
  | s :: rest =>
    if decide (s = source) then rest else s :: closeOne source rest
  end.

(** The observable subscriptions a trace has opened and not closed, one
    entry per [subscribe] call that no [unsubscribe] call has answered. *)
Fixpoint openSubscriptions (effects : list Effect) (opened : list positive) :
    list positive :=
  match effects with
  | [] => opened
  | Subscribe source :: rest => openSubscriptions rest (opened ++ [source])
  | Unsubscribe source :: rest =>
    openSubscriptions rest (closeOne source opened)
  | _ :: rest => openSubscriptions rest opened
  end.

(** A template's successive calls of [transform], stopping at a throw. *)
Fixpoint transformAll (inputs : list (option AsyncObject)) (st : State) :
    option State :=
  match inputs with
  | [] => Some st
  | obj :: rest =>
    match transform 2 obj st with
    | Some (st', Normal _) => transformAll rest st'
    | _ => None
    end
  end.

End Pipe.

Arguments mkAsyncObject {Value} _ _ _ _.
Arguments ident {Value} _.
Arguments hasThen {Value} _.
Arguments hasSubscribe {Value} _.
Arguments emitsAtOnce {Value} _.
Arguments mkState {Value} _ _ _ _ _.
Arguments _latestValue {Value} _.
Arguments _subscription {Value} _.
Arguments _obj {Value} _.
Arguments _strategy {Value} _.
Arguments trace {Value} _.
Arguments newPipe {Value}.
Arguments ret {Value A} _ _.
Arguments throw {Value A} _ _.
Arguments andThen {Value A B} _ _ _.
Arguments emit {Value} _ _.
Arguments set_latestValue {Value} _ _.
Arguments set_subscription {Value} _ _.
Arguments set_obj {Value} _ _.
Arguments set_strategy {Value} _ _.
Arguments sameObject {Value} _ _.
Arguments _updateLatestValue {Value} _ _ _.
Arguments deliver {Value} _ _ _.
Arguments createSubscription {Value} _ _ _ _.
Arguments dispose {Value} _ _ _.
Arguments _selectStrategy {Value} _ _.
Arguments _subscribe {Value} _ _.
Arguments _dispose {Value} _.
Arguments ngOnDestroy {Value} _.
Arguments differs {Value} _ _.
Arguments transform {Value} _ _ _.
Arguments Settled {Value} _.
Arguments accepted {Value} _.
Arguments strategyOf {Value} _.
Arguments subscriptionOf {Value} _.
Arguments valueAtOnce {Value} _.
Arguments released {Value} _.
Arguments held {Value} _.
Arguments release {Value} _.
Arguments acquire {Value} _.
Arguments transformAll {Value} _ _.

End AsyncPipe.

(* ===================================================================== *)
(** * Concrete inputs                                                      *)
(* ===================================================================== *)

Module InheritanceExamples.
Import Inheritance.

Definition refA := mkReference 1 "A".
Definition refB := mkReference 2 "B".
Definition refC := mkReference 3 "C".

(** Root class C: inputs [value] and [cId] (public name [id]). *)
Definition metaC : DirectiveMeta :=
  {| ref := refC; name := "C"; selector := None;
     inputs := {[ "value" := "value"; "cId" := "id" ]};
     outputs := {[ "changed" := "changed" ]};
     coercedInputFields := {[ "value" ]};
     undeclaredInputFields := ∅;
     restrictedInputFields := {[ "cId" ]};
     stringLiteralInputFields := ∅;
     baseClass := NoBase |}.

(** Class B extends C and re-declares [value] under the public name
    [alias]. *)
Definition metaB : DirectiveMeta :=
  {| ref := refB; name := "B"; selector := None;
     inputs := {[ "value" := "alias" ]};
     outputs := ∅;
     coercedInputFields := ∅;
     undeclaredInputFields := {[ "extra" ]};
     restrictedInputFields := ∅;
     stringLiteralInputFields := {[ "value" ]};
     baseClass := Base refC |}.

(** Directive A extends B. *)
Definition metaA : DirectiveMeta :=
  {| ref := refA; name := "A"; selector := Some "[a]";
     inputs := {[ "label" := "label" ]};
     outputs := {[ "changed" := "aChanged" ]};
     coercedInputFields := {[ "label" ]};
     undeclaredInputFields := ∅;
     restrictedInputFields := ∅;
     stringLiteralInputFields := ∅;
     baseClass := Base refB |}.

(** A reader that knows all three classes. *)
Definition fullReader : MetadataReader := fun r =>
  match node r with
  | 1%positive => Some metaA
  | 2%positive => Some metaB
  | 3%positive => Some metaC
  | _ => None
  end.

(** A reader without metadata for the middle class B. *)
Definition gapReader : MetadataReader := fun r =>
  match node r with
  | 1%positive => Some metaA
  | 3%positive => Some metaC
  | _ => None
  end.

(** A reader that knows no class at all. *)
Definition emptyReader : MetadataReader := fun _ => None.

(** The record flattening yields for A under [gapReader]. *)
Definition flatA_gap : DirectiveMeta :=
  {| ref := refA; name := "A"; selector := Some "[a]";
     inputs := {[ "label" := "label" ]};
     outputs := {[ "changed" := "aChanged" ]};
     coercedInputFields := {[ "label" ]};
     undeclaredInputFields := ∅;
     restrictedInputFields := ∅;
     stringLiteralInputFields := ∅;
     baseClass := Dynamic |}.

(** A reader handing out that flattened record. *)
Definition flatReader : MetadataReader := fun r =>
  match node r with
  | 1%positive => Some flatA_gap
  | _ => None
  end.

(** A reader that knows A and B but not the root class C. *)
Definition tailGapReader : MetadataReader := fun r =>
  match node r with
  | 1%positive => Some metaA
  | 2%positive => Some metaB
  | _ => None
  end.

(** A class that names itself as its base class. *)
Definition metaLoop : DirectiveMeta :=
  {| ref := refA; name := "Loop"; selector := None;
     inputs := ∅; outputs := ∅;
     coercedInputFields := ∅;
     undeclaredInputFields := ∅;
     restrictedInputFields := ∅;
     stringLiteralInputFields := ∅;
     baseClass := Base refA |}.

Definition loopReader : MetadataReader := fun _ => Some metaLoop.

End InheritanceExamples.

Module PositionExamples.
Import PositionResolver.

Definition span (s e : Z) : ParseSourceSpan :=
  mkParseSourceSpan (mkParseLocation s) (mkParseLocation e).

(** The template [<b/><i/>]: two adjacent root elements of four characters
    each; offset 4 is the cursor position between them. *)
Definition elemB : Node := Element "b" [] [] [] [] [] (span 0 4) None.
Definition elemI : Node := Element "i" [] [] [] [] [] (span 4 8) None.

(** The template [<div>hi</div>]: the opening tag is [0,5], the text [5,7]
    and the closing tag [7,13]. *)
Definition textHi : Node := Text "hi" (span 5 7).
Definition divHi : Node :=
  Element "div" [] [] [] [] [textHi] (span 0 5) (Some (span 7 13)).

(** The template [<p [title]="name"></p>]: the binding spans [3,17], its key
    [4,9] and its value [12,16]. *)
Definition readName : AST :=
  Expression "PropertyRead"
    [ImplicitReceiver (mkAbsoluteSourceSpan 12 12)]
    (mkAbsoluteSourceSpan 12 16).
Definition exprName : AST :=
  ASTWithSource readName (mkAbsoluteSourceSpan 12 16).
Definition attrTitle : Node :=
  BoundAttribute "title" exprName (span 3 17)
    (Some (mkKeyAndValue (span 4 9) (Some (span 12 16)))).
Definition elemP : Node :=
  Element "p" [] [attrTitle] [] [] [] (span 0 18) (Some (span 18 22)).

(** The template [<input [(ngModel)]="name">]: the two-way binding spans
    [7,25], its key [9,16] and its value [20,24]; it is both a bound
    attribute and a bound event. *)
Definition exprModel : AST :=
  ASTWithSource
    (Expression "PropertyRead"
       [ImplicitReceiver (mkAbsoluteSourceSpan 20 20)]
       (mkAbsoluteSourceSpan 20 24))
    (mkAbsoluteSourceSpan 20 24).
Definition modelAttr : Node :=
  BoundAttribute "ngModel" exprModel (span 7 25)
    (Some (mkKeyAndValue (span 9 16) (Some (span 20 24)))).
Definition modelEvent : Node :=
  BoundEvent "ngModelChange" exprModel (span 7 25)
    (Some (mkKeyAndValue (span 9 16) None)).
Definition elemInput : Node :=
  Element "input" [] [modelAttr] [modelEvent] [] [] (span 0 26) None.

(** The bound text [Hi {{title}}] at [0,11], the interpolated expression
    [title] at [5,10]. *)
Definition exprTitle : AST :=
  ASTWithSource
    (Expression "Interpolation"
       [Expression "PropertyRead"
          [ImplicitReceiver (mkAbsoluteSourceSpan 5 5)]
          (mkAbsoluteSourceSpan 5 10)]
       (mkAbsoluteSourceSpan 3 11))
    (mkAbsoluteSourceSpan 3 11).
Definition greeting : Node := BoundText exprTitle (span 0 11).


(** A lone text node [hello] at [0,5]. *)
Definition textHello : Node := Text "hello" (span 0 5).

End PositionExamples.

Module SerializerExamples.
Import TranslationSerializer.

(** A toy instance: an element is a list of tokens, the token [?] is a
    parse error that is dropped from the nodes, and rendering the token
    [i18n] (a nested translatable section) throws. *)
Definition toyParse (element : list string) : list string * list string :=
  (filter (fun t => t <> "?") element,
   if bool_decide ("?" ∈ element) then ["Unexpected character"] else []).

Definition toyNew (config : bool) : Completion string bool := Normal config.

Definition toySerialize (serializer : bool) (nodes : list string) :
    Completion string string :=
  if bool_decide ("i18n" ∈ nodes) then Throw "Nested i18n section"
  else Normal (String.concat " " nodes).

Definition toyMessage (element : list string) : SerializeResult string string :=
  serializeTranslationMessage (list string) string string string bool bool
    toyParse toyNew toySerialize element true.

End SerializerExamples.

Module AsyncPipeExamples.
Import AsyncPipe.

(** An observable that delivers 7 and then 8 while being subscribed to, a
    promise, and an object that is neither. *)
Definition ticker : AsyncObject Z := mkAsyncObject 1 false true [Some 7; Some 8].
Definition promised : AsyncObject Z := mkAsyncObject 2 true false [].
Definition bogus : AsyncObject Z := mkAsyncObject 3 false false [].

(** A new pipe after [transform(ticker)]. *)
Definition onTicker : State Z :=
  mkState (Some 8) (Some (ObservableSubscription 1)) (Some ticker)
    (Some ObservableStrategy) [Subscribe 1; MarkForCheck; MarkForCheck].

(** That pipe after [transform(promised)]. *)
Definition onPromised : State Z :=
  mkState None (Some (ChainedPromise 2)) (Some promised)
    (Some PromiseStrategy)
    [Subscribe 1; MarkForCheck; MarkForCheck; Unsubscribe 1; Then 2].

(** A new pipe after the rejected [transform(bogus)]. *)
Definition onBogus : State Z := mkState None None (Some bogus) None [].

End AsyncPipeExamples.

(* ===================================================================== *)
(** * Properties of the directive metadata flattener                       *)
(* ===================================================================== *)

Module InheritanceFacts.
Import Inheritance.

(** ** The accumulators *)

Lemma addFields_union (dst src : gset string) : addFields dst src = dst ∪ src.
Proof.
  unfold addFields.
  apply (set_fold_ind_L (fun r X => r = dst ∪ X)).
  - by rewrite (right_id_L ∅ (∪)).
  - intros x X r _ ->. set_solver.
Qed.

Lemma addFields_empty (src : gset string) : addFields ∅ src = src.
Proof. rewrite addFields_union. by rewrite (left_id_L ∅ (∪)). Qed.

Lemma merge_lookup (a b : gmap string string) (k : string) :
  ClassPropertyMapping.merge a b !! k =
  match b !! k with Some v => Some v | None => a !! k end.
Proof.
  unfold ClassPropertyMapping.merge. rewrite lookup_union.
  destruct (b !! k), (a !! k); reflexivity.
Qed.

Lemma merge_empty (b : gmap string string) :
  ClassPropertyMapping.merge ClassPropertyMapping.empty b = b.
Proof.
  unfold ClassPropertyMapping.merge, ClassPropertyMapping.empty.
  by rewrite (right_id_L ∅ (∪)).
Qed.

Lemma mergedMapping_lookup (k : string) (ms : list (gmap string string)) :
  mergedMapping ms !! k = firstDeclared k ms.
Proof.
  induction ms as [|m ms IH]; simpl.
  - apply lookup_empty.
  - rewrite merge_lookup. destruct (m !! k); [reflexivity | exact IH].
Qed.

Lemma mergeLevel_isDynamic meta s :
  l_isDynamic (mergeLevel meta s) = l_isDynamic s.
Proof. reflexivity. Qed.

(** ** Walking a chain *)

Lemma addMetadata_S fuel reader meta s :
  addMetadata (S fuel) reader meta s =
  match
    match baseClass meta with
    | Dynamic => Some (setDynamic s)
    | Base b =>
      match reader b with
      | Some baseMeta => addMetadata fuel reader baseMeta s
      | None => Some (setDynamic s)
      end
    | NoBase => Some s
    end
  with
  | Some s' => Some (mergeLevel meta s')
  | None => None
  end.
Proof. reflexivity. Qed.

(** On a chain that is broken somewhere the walk ends, given fuel for the
    levels below the break, and leaves [isDynamic] set. *)
Lemma addMetadata_broken reader m :
  Broken reader m ->
  exists n, forall fuel s, (n <= fuel)%nat ->
    exists s', addMetadata fuel reader m s = Some s' /\ l_isDynamic s' = true.
Proof.
  induction 1 as [m Hd | m b Hb Hr | m b bm Hb Hr _ [n IH]].
  - exists 1%nat. intros [|fuel] s Hle; [lia|].
    rewrite addMetadata_S, Hd. eauto.
  - exists 1%nat. intros [|fuel] s Hle; [lia|].
    rewrite addMetadata_S, Hb, Hr. eauto.
  - exists (S n). intros [|fuel] s Hle; [lia|].
    rewrite addMetadata_S, Hb, Hr.
    destruct (IH fuel s) as (s' & -> & Hdyn); [lia|].
    eauto.
Qed.

(** On a resolvable chain the walk ends, given fuel for every level, having
    merged the levels from the base end up to the start. *)
Lemma addMetadata_resolvable reader m levels :
  Resolvable reader m levels ->
  forall fuel s, (length levels <= fuel)%nat ->
    addMetadata fuel reader m s = Some (foldr mergeLevel s levels).
Proof.
  induction 1 as [m Hn | m b bm levels Hb Hr _ IH]; intros [|fuel] s Hle;
    simpl in Hle; try lia; rewrite addMetadata_S.
  - by rewrite Hn.
  - rewrite Hb, Hr, IH by lia. reflexivity.
Qed.

Lemma foldr_mergeLevel_isDynamic s levels :
  l_isDynamic (foldr mergeLevel s levels) = l_isDynamic s.
Proof. induction levels; simpl; auto. Qed.

Lemma foldr_mergeLevel_inputs levels :
  l_inputs (foldr mergeLevel initialLocals levels) = mergedMapping (inputs <$> levels).
Proof. induction levels as [|m ls IH]; simpl; [reflexivity | by rewrite IH]. Qed.

Lemma foldr_mergeLevel_outputs levels :
  l_outputs (foldr mergeLevel initialLocals levels) = mergedMapping (outputs <$> levels).
Proof. induction levels as [|m ls IH]; simpl; [reflexivity | by rewrite IH]. Qed.

Lemma foldr_mergeLevel_coerced levels :
  l_coercedInputFields (foldr mergeLevel initialLocals levels)
  = ⋃ (coercedInputFields <$> levels).
Proof.
  induction levels as [|m ls IH]; simpl; [reflexivity|].
  rewrite addFields_union, IH. set_solver.
Qed.

Lemma foldr_mergeLevel_undeclared levels :
  l_undeclaredInputFields (foldr mergeLevel initialLocals levels)
  = ⋃ (undeclaredInputFields <$> levels).
Proof.
  induction levels as [|m ls IH]; simpl; [reflexivity|].
  rewrite addFields_union, IH. set_solver.
Qed.

Lemma foldr_mergeLevel_restricted levels :
  l_restrictedInputFields (foldr mergeLevel initialLocals levels)
  = ⋃ (restrictedInputFields <$> levels).
Proof.
  induction levels as [|m ls IH]; simpl; [reflexivity|].
  rewrite addFields_union, IH. set_solver.
Qed.

Lemma foldr_mergeLevel_stringLiteral levels :
  l_stringLiteralInputFields (foldr mergeLevel initialLocals levels)
  = ⋃ (stringLiteralInputFields <$> levels).
Proof.
  induction levels as [|m ls IH]; simpl; [reflexivity|].
  rewrite addFields_union, IH. set_solver.
Qed.

(** The flattener returns only records without base class or marked
    dynamic. *)
Lemma flatten_baseClass fuel reader dir m :
  flattenInheritedDirectiveMetadata fuel reader dir = Returned m ->
  baseClass m = NoBase \/ baseClass m = Dynamic.
Proof.
  unfold flattenInheritedDirectiveMetadata.
  destruct (reader dir) as [top|]; [|discriminate].
  destruct (baseClass top) eqn:Hb.
  - intros [= <-]. auto.
  - destruct (addMetadata fuel reader top initialLocals) as [s|]; [|discriminate].
    intros [= <-]. simpl. destruct (l_isDynamic s); auto.
  - destruct (addMetadata fuel reader top initialLocals) as [s|]; [|discriminate].
    intros [= <-]. simpl. destruct (l_isDynamic s); auto.
Qed.

(** A record without base class or marked dynamic is a fixed point. *)
Lemma flatten_fixed fuel reader dir m :
  reader dir = Some m ->
  baseClass m = NoBase \/ baseClass m = Dynamic ->
  flattenInheritedDirectiveMetadata (S fuel) reader dir = Returned m.
Proof.
  intros Hr Hb. unfold flattenInheritedDirectiveMetadata. rewrite Hr.
  destruct Hb as [Hb | Hb]; rewrite Hb; [reflexivity|].
  rewrite addMetadata_S, Hb. simpl.
  rewrite !addFields_empty, !merge_empty.
  destruct m; simpl in *. by rewrite Hb.
Qed.

(** ** The stated properties *)

(** C3: when the reader's metadata for the directive has [baseClass] null,
    the flattener returns exactly that metadata, whatever the recursion
    bound: the early return happens before any accumulator is created, so
    nothing is merged. *)
Theorem flatten_null_baseClass_unchanged fuel reader dir topMeta :
  reader dir = Some topMeta ->
  baseClass topMeta = NoBase ->
  flattenInheritedDirectiveMetadata fuel reader dir = Returned topMeta.
Proof.
  intros Hr Hb. unfold flattenInheritedDirectiveMetadata.
  rewrite Hr, Hb. reflexivity.
Qed.

Lemma flatten_null_baseClass_unchanged_witness :
  flattenInheritedDirectiveMetadata 0 InheritanceExamples.fullReader
    InheritanceExamples.refC = Returned InheritanceExamples.metaC.
Proof.
  apply (flatten_null_baseClass_unchanged 0 InheritanceExamples.fullReader
           InheritanceExamples.refC InheritanceExamples.metaC);
    reflexivity.
Defined.

(** C9: when the reader has no metadata for the queried directive itself,
    the flattener throws the error "Metadata not found for directive: <name>"
    and returns no record at all, whatever the recursion bound; when the
    directive's metadata is present and it is the referenced base class that
    the reader does not know, the flattener returns a record marked
    ['dynamic'] instead. *)
Theorem flatten_missing_directive_throws reader dir :
  reader dir = None ->
  (forall fuel,
     flattenInheritedDirectiveMetadata fuel reader dir =
     Thrown ("Metadata not found for directive: " +:+ debugName dir)) /\
  (forall fuel m, flattenInheritedDirectiveMetadata fuel reader dir <> Returned m) /\
  (forall derived top,
     reader derived = Some top -> baseClass top = Base dir ->
     forall fuel, exists m,
       flattenInheritedDirectiveMetadata (S fuel) reader derived = Returned m /\
       baseClass m = Dynamic).
Proof.
  intros Hr. split; [|split].
  - intros fuel. unfold flattenInheritedDirectiveMetadata. by rewrite Hr.
  - intros fuel m. unfold flattenInheritedDirectiveMetadata. by rewrite Hr.
  - intros derived top Hd Hb fuel.
    unfold flattenInheritedDirectiveMetadata. rewrite Hd, Hb.
    rewrite addMetadata_S, Hb, Hr. simpl. eauto.
Qed.

Lemma flatten_missing_directive_throws_witness :
  (forall fuel,
     flattenInheritedDirectiveMetadata fuel InheritanceExamples.gapReader
       InheritanceExamples.refB =
     Thrown "Metadata not found for directive: B") /\
  (forall fuel m,
     flattenInheritedDirectiveMetadata fuel InheritanceExamples.gapReader
       InheritanceExamples.refB <> Returned m) /\
  (forall derived top,
     InheritanceExamples.gapReader derived = Some top ->
     baseClass top = Base InheritanceExamples.refB ->
     forall fuel, exists m,
       flattenInheritedDirectiveMetadata (S fuel) InheritanceExamples.gapReader
         derived = Returned m /\
       baseClass m = Dynamic).
Proof.
  apply (flatten_missing_directive_throws InheritanceExamples.gapReader
           InheritanceExamples.refB).
  reflexivity.
Defined.

(** C4: when the directive's metadata is known and its chain is broken at
    some level (a level whose base class is ['dynamic'], or a referenced base
    class the reader has no metadata for), the flattener returns, for every
    recursion bound from some point on, a record whose [baseClass] is
    ['dynamic']. The classes above the break are never consulted. *)
Theorem flatten_broken_chain_dynamic reader dir topMeta :
  reader dir = Some topMeta ->
  Broken reader topMeta ->
  exists n, forall fuel, (n <= fuel)%nat ->
    exists m, flattenInheritedDirectiveMetadata fuel reader dir = Returned m /\
              baseClass m = Dynamic.
Proof.
  intros Hr Hbroken.
  destruct (addMetadata_broken reader topMeta Hbroken) as [n Hn].
  exists n. intros fuel Hle.
  destruct (Hn fuel initialLocals Hle) as (s & Hs & Hdyn).
  unfold flattenInheritedDirectiveMetadata. rewrite Hr, Hs.
  destruct (baseClass topMeta) eqn:Hb.
  - inversion Hbroken; congruence.
  - eexists. split; [reflexivity|]. simpl. by rewrite Hdyn.
  - eexists. split; [reflexivity|]. simpl. by rewrite Hdyn.
Qed.

(** The three-level chain A -> B -> C read through a reader that lacks the
    middle class B. *)
Lemma flatten_broken_chain_dynamic_witness :
  exists n, forall fuel, (n <= fuel)%nat ->
    exists m,
      flattenInheritedDirectiveMetadata fuel InheritanceExamples.gapReader
        InheritanceExamples.refA = Returned m /\
      baseClass m = Dynamic.
Proof.
  apply (flatten_broken_chain_dynamic InheritanceExamples.gapReader
           InheritanceExamples.refA InheritanceExamples.metaA).
  - reflexivity.
  - apply Broken_missing with (b := InheritanceExamples.refB); reflexivity.
Defined.

(** C5: on a resolvable chain [levels] (most derived first) the flattener
    returns, given a recursion bound of at least the number of levels, a
    record with [baseClass] null whose [inputs] and [outputs] are the merge
    of all levels' mappings taken from the base end towards the directive
    with the later argument winning, so that each key carries the entry of
    the most derived level declaring it, and whose four field sets are the
    unions of the levels' sets. *)
Theorem flatten_resolvable_chain_merges reader dir topMeta levels :
  reader dir = Some topMeta ->
  Resolvable reader topMeta levels ->
  forall fuel, (length levels <= fuel)%nat ->
    exists m,
      flattenInheritedDirectiveMetadata fuel reader dir = Returned m /\
      baseClass m = NoBase /\
      inputs m = mergedMapping (inputs <$> levels) /\
      outputs m = mergedMapping (outputs <$> levels) /\
      (forall k, inputs m !! k = firstDeclared k (inputs <$> levels)) /\
      (forall k, outputs m !! k = firstDeclared k (outputs <$> levels)) /\
      coercedInputFields m = ⋃ (coercedInputFields <$> levels) /\
      undeclaredInputFields m = ⋃ (undeclaredInputFields <$> levels) /\
      restrictedInputFields m = ⋃ (restrictedInputFields <$> levels) /\
      stringLiteralInputFields m = ⋃ (stringLiteralInputFields <$> levels).
Proof.
  intros Hr Hres fuel Hle.
  assert (Hflat : exists m,
    flattenInheritedDirectiveMetadata fuel reader dir = Returned m /\
    baseClass m = NoBase /\
    inputs m = mergedMapping (inputs <$> levels) /\
    outputs m = mergedMapping (outputs <$> levels) /\
    coercedInputFields m = ⋃ (coercedInputFields <$> levels) /\
    undeclaredInputFields m = ⋃ (undeclaredInputFields <$> levels) /\
    restrictedInputFields m = ⋃ (restrictedInputFields <$> levels) /\
    stringLiteralInputFields m = ⋃ (stringLiteralInputFields <$> levels)).
  { unfold flattenInheritedDirectiveMetadata. rewrite Hr.
    pose proof (addMetadata_resolvable reader topMeta levels Hres fuel
                  initialLocals Hle) as Hadd.
    inversion Hres as [m Hb Hm Hl | m b bm levels' Hb Hrb Hrest Hm Hl]; subst.
    - rewrite Hb. exists topMeta. split; [reflexivity|]. split; [exact Hb|].
      simpl. rewrite merge_empty, merge_empty.
      rewrite !(right_id_L ∅ (∪)). repeat split; reflexivity.
    - rewrite Hb, Hadd. eexists. split; [reflexivity|].
      cbv beta iota delta [baseClass inputs outputs coercedInputFields
        undeclaredInputFields restrictedInputFields stringLiteralInputFields].
      rewrite foldr_mergeLevel_isDynamic, foldr_mergeLevel_inputs,
        foldr_mergeLevel_outputs, foldr_mergeLevel_coerced,
        foldr_mergeLevel_undeclared, foldr_mergeLevel_restricted,
        foldr_mergeLevel_stringLiteral.
      repeat split; reflexivity. }
  destruct Hflat as (m & Hm & Hb & Hin & Hout & Hc & Hu & Hre & Hs).
  exists m. repeat split; try assumption.
  - intros k. rewrite Hin. apply mergedMapping_lookup.
  - intros k. rewrite Hout. apply mergedMapping_lookup.
Qed.

(** The three-level chain A -> B -> C with every class known: [value] is
    declared by B and by C, and B's entry wins. *)
Lemma flatten_resolvable_chain_merges_witness :
  exists m,
    flattenInheritedDirectiveMetadata 3 InheritanceExamples.fullReader
      InheritanceExamples.refA = Returned m /\
    baseClass m = NoBase /\
    inputs m !! "value" = Some "alias" /\
    outputs m !! "changed" = Some "aChanged" /\
    coercedInputFields m = {[ "label"; "value" ]}.
Proof.
  destruct (flatten_resolvable_chain_merges InheritanceExamples.fullReader
              InheritanceExamples.refA InheritanceExamples.metaA
              [InheritanceExamples.metaA; InheritanceExamples.metaB;
               InheritanceExamples.metaC])
    with (fuel := 3%nat)
    as (m & Hm & Hb & _ & _ & Hin & Hout & Hc & _).
  - reflexivity.
  - eapply Resolvable_step; [reflexivity | reflexivity |].
    eapply Resolvable_step; [reflexivity | reflexivity |].
    apply Resolvable_root. reflexivity.
  - simpl. lia.
  - exists m. split; [exact Hm|]. split; [exact Hb|].
    split; [rewrite Hin; reflexivity|].
    split; [rewrite Hout; reflexivity|].
    rewrite Hc. vm_compute. reflexivity.
Defined.

(** C2: a record returned by the flattener is a fixed point of the
    flattener: read back through any reader that hands it out, it is
    returned again, equal field by field. *)
Theorem flatten_idempotent fuel reader dir m :
  flattenInheritedDirectiveMetadata fuel reader dir = Returned m ->
  forall reader' dir' fuel',
    reader' dir' = Some m ->
    flattenInheritedDirectiveMetadata (S fuel') reader' dir' = Returned m.
Proof.
  intros Hflat reader' dir' fuel' Hr.
  apply flatten_fixed; [exact Hr|].
  exact (flatten_baseClass fuel reader dir m Hflat).
Qed.

Lemma flatten_idempotent_witness :
  flattenInheritedDirectiveMetadata 1 InheritanceExamples.flatReader
    InheritanceExamples.refA = Returned InheritanceExamples.flatA_gap.
Proof.
  apply (flatten_idempotent 2 InheritanceExamples.gapReader
           InheritanceExamples.refA InheritanceExamples.flatA_gap);
    [vm_compute; reflexivity | reflexivity].
Defined.

End InheritanceFacts.

(* ===================================================================== *)
(** * Properties of the position resolver                                  *)
(* ===================================================================== *)

Module PositionFacts.
Import PositionResolver.

(** ** Induction over the nested trees *)

Lemma AST_nested_ind (P : AST -> Prop) :
  (forall sp, P (ImplicitReceiver sp)) ->
  (forall ast sp, P ast -> P (ASTWithSource ast sp)) ->
  (forall kind operands sp, Forall P operands -> P (Expression kind operands sp)) ->
  forall node, P node.
Proof.
  intros HI HW HE. fix IH 1. intros [sp | ast sp | kind operands sp].
  - apply HI.
  - apply HW, IH.
  - apply HE. induction operands as [|o os IHos]; constructor; [apply IH | exact IHos].
Qed.

Lemma Node_nested_ind (P : Node -> Prop) :
  (forall node, Forall P (subNodes node) -> P node) ->
  forall node, P node.
Proof.
  intros H. fix IH 1. intros node. apply H.
  destruct node as
    [? a i o r c ? ? | ? a i o ta r v c ? ? | ? a ? | | | | | | | | va pl ?];
    simpl; repeat apply Forall_app_2; try (constructor; fail).
  all: match goal with
       | |- Forall _ ?l =>
         induction l as [|x l IHl]; constructor; [apply IH | exact IHl]
       end.
Qed.

(** ** Spans *)

Lemma isWithin_spec position span :
  isWithin position span = true <->
  Span_start span <= position <= Span_end span.
Proof.
  unfold isWithin. destruct span as [sp | sp]; simpl;
    rewrite andb_true_iff, !Z.leb_le; reflexivity.
Qed.

Lemma isWithin_false position span :
  isWithin position span = false <->
  position < Span_start span \/ Span_end span < position.
Proof.
  rewrite <- not_true_iff_false, isWithin_spec. lia.
Qed.


Lemma getSpanIncludingEndTag_start node :
  abs_start (getSpanIncludingEndTag node) = offset (ps_start (Node_sourceSpan node)).
Proof.
  destruct node as
    [? ? ? ? ? ? ? [e|] | ? ? ? ? ? ? ? ? ? [e|] | | | | | | | | | ]; reflexivity.
Qed.

Lemma getSpanIncludingEndTag_end node :
  abs_end (getSpanIncludingEndTag node) =
  match Node_endSourceSpan node with
  | Some endSourceSpan => offset (ps_end endSourceSpan)
  | None => offset (ps_end (Node_sourceSpan node))
  end.
Proof.
  destruct node as
    [? ? ? ? ? ? ? [e|] | ? ? ? ? ? ? ? ? ? [e|] | | | | | | | | | ]; reflexivity.
Qed.

(** ** Functions that only extend the path *)

Section Extension.
Variable position : Z.

Lemma Extends_id : Extends position (fun path => path).
Proof. intros path. exists []. split; [by rewrite app_nil_r | constructor]. Qed.

Lemma Extends_compose f g :
  Extends position f -> Extends position g ->
  Extends position (fun path => g (f path)).
Proof.
  intros Hf Hg path.
  destruct (Hf path) as (e1 & -> & H1).
  destruct (Hg (path ++ e1)) as (e2 & -> & H2).
  exists (e1 ++ e2). split; [by rewrite app_assoc | by apply Forall_app_2].
Qed.

Lemma Extends_ext f g :
  (forall path, f path = g path) -> Extends position f -> Extends position g.
Proof.
  intros Heq Hf path. destruct (Hf path) as (e & He & HF).
  exists e. by rewrite <- Heq.
Qed.

Lemma visitAll_extends (v : Node -> Path -> Path) nodes :
  Forall (fun n => Extends position (v n)) nodes ->
  Extends position (visitAll v nodes).
Proof.
  unfold visitAll. induction 1 as [|n ns Hn _ IH]; simpl.
  - apply Extends_id.
  - exact (Extends_compose _ _ Hn IH).
Qed.

Lemma visitWith_extends node :
  Extends position (AST_visit position (unwrapSource node)) ->
  Extends position (visitWith position (AST_visit position) node).
Proof.
  intros Hn path. unfold visitWith.
  destruct (isWithin position (Absolute (AST_sourceSpan (unwrapSource node))))
    eqn:Hw; simpl.
  - destruct (isImplicitReceiver (unwrapSource node)); simpl.
    + exists []. split; [by rewrite app_nil_r | constructor].
    + destruct (Hn (path ++ [ExpressionNode (unwrapSource node)])) as (e & -> & He).
      exists (ExpressionNode (unwrapSource node) :: e).
      split; [by rewrite <- app_assoc | by constructor].
  - exists []. split; [by rewrite app_nil_r | constructor].
Qed.

Lemma AST_visit_extends node : Extends position (AST_visit position node).
Proof.
  induction node as [sp | ast sp IH | kind operands sp IH] using AST_nested_ind.
  - apply Extends_id.
  - exact IH.
  - simpl. induction IH as [|o os Ho _ IHos]; simpl.
    + apply Extends_id.
    + refine (Extends_compose _ _ _ IHos).
      apply visitWith_extends. destruct o; exact Ho.
Qed.

Lemma ExpressionVisitor_visit_extends node :
  Extends position (ExpressionVisitor_visit position node).
Proof. apply visitWith_extends, AST_visit_extends. Qed.

(** [node.visit(this)] in terms of the sub-nodes, for the kinds that have
    some. *)
Lemma Node_visit_subNodes (v : Node -> Path -> Path) node path :
  match node with
  | Element _ _ _ _ _ _ _ _ | Template _ _ _ _ _ _ _ _ _ _
  | Content _ _ _ | Icu _ _ _ =>
    Node_visit position v node path = visitAll v (subNodes node) path
  | _ => True
  end.
Proof.
  destruct node; simpl; trivial;
    unfold visitElement, visitTemplate, visitContent, visitIcu, visitAll;
    by rewrite ?fold_left_app.
Qed.

Lemma Node_visit_extends (v : Node -> Path -> Path) node path :
  Forall (fun n => Extends position (v n)) (subNodes node) ->
  pairedEvent node path = false ->
  exists ext,
    Node_visit position v node path = path ++ ext /\
    Forall (fun e => entryContains position e = true) ext.
Proof.
  intros Hsub Hpair.
  pose proof (Node_visit_subNodes v node path) as Hn.
  destruct node; try (rewrite Hn; by apply visitAll_extends);
    simpl; try apply Extends_id.
  - apply ExpressionVisitor_visit_extends.
  - unfold visitBoundEvent. simpl in Hpair. rewrite Hpair.
    apply ExpressionVisitor_visit_extends.
  - apply ExpressionVisitor_visit_extends.
Qed.

Lemma visit_eq node path :
  visit position node path =
  if contains position node then
    if largerThanLast node path then path
    else Node_visit position (visit position) node (path ++ [TemplateNode node])
  else path.
Proof. destruct node; reflexivity. Qed.

Lemma pairedEvent_snoc node path :
  pairedEvent node (path ++ [TemplateNode node]) = pairedEvent node path.
Proof.
  destruct node; simpl; trivial.
  unfold isTwoWayBinding. rewrite existsb_app. simpl. by rewrite !orb_false_r.
Qed.

Lemma visit_extends node : Extends position (visit position node).
Proof.
  induction node as [node IH] using Node_nested_ind. intros path.
  rewrite visit_eq.
  destruct (contains position node) eqn:Hc;
    [|exists []; split; [by rewrite app_nil_r | constructor]].
  destruct (largerThanLast node path);
    [exists []; split; [by rewrite app_nil_r | constructor]|].
  destruct (pairedEvent node path) eqn:Hp.
  - destruct node; try discriminate. simpl in Hp. simpl.
    unfold visitBoundEvent, isTwoWayBinding in *.
    rewrite existsb_app, Hp. simpl. rewrite removelast_last.
    exists []. split; [by rewrite app_nil_r | constructor].
  - destruct (Node_visit_extends (visit position) node
                (path ++ [TemplateNode node]) IH) as (e & -> & He).
    { by rewrite pairedEvent_snoc. }
    exists (TemplateNode node :: e).
    split; [by rewrite <- app_assoc | by constructor].
Qed.

Lemma visit_outside node path :
  contains position node = false -> visit position node path = path.
Proof. intros Hc. by rewrite visit_eq, Hc. Qed.

Lemma visit_enters node path :
  contains position node = true ->
  largerThanLast node path = false ->
  pairedEvent node path = false ->
  exists ext,
    visit position node path = path ++ TemplateNode node :: ext /\
    Forall (fun e => entryContains position e = true) ext.
Proof.
  intros Hc Hl Hp. rewrite visit_eq, Hc, Hl.
  destruct (Node_visit_extends (visit position) node
              (path ++ [TemplateNode node])) as (e & -> & He).
  - apply Forall_forall. intros n _. apply visit_extends.
  - by rewrite pairedEvent_snoc.
  - exists e. split; [by rewrite <- app_assoc | exact He].
Qed.

Lemma visitAll_visit_extends nodes :
  Extends position (visitAll (visit position) nodes).
Proof.
  apply visitAll_extends, Forall_forall. intros n _. apply visit_extends.
Qed.

End Extension.

(** ** Roots and candidates *)

Lemma largerThanLast_nil node : largerThanLast node [] = false.
Proof. reflexivity. Qed.

Lemma largerThanLast_last node path lastEntry :
  last path = Some lastEntry ->
  largerThanLast node path =
  (spanLength (getSpanIncludingEndTag node) >? spanLength (entrySpan lastEntry)).
Proof. intros Hl. unfold largerThanLast. rewrite Hl. reflexivity. Qed.

Lemma pairedEvent_nil node : pairedEvent node [] = false.
Proof. destruct node; reflexivity. Qed.

Lemma visit_root position node :
  contains position node = true ->
  exists ext,
    visit position node [] = TemplateNode node :: ext /\
    Forall (fun e => entryContains position e = true) ext.
Proof.
  intros Hc.
  exact (visit_enters position node [] Hc (largerThanLast_nil node)
           (pairedEvent_nil node)).
Qed.

Lemma visitAll_outside position nodes path :
  Forall (fun n => contains position n = false) nodes ->
  visitAll (visit position) nodes path = path.
Proof.
  unfold visitAll. induction 1 as [|n ns Hn _ IH]; simpl; [reflexivity|].
  by rewrite visit_outside.
Qed.

Lemma candidateAt_None ast position :
  candidateAt ast position = None <->
  Forall (fun root => contains position root = false) ast.
Proof.
  unfold candidateAt. induction ast as [|n ns IH].
  - split; [constructor | reflexivity].
  - change (visitAll (visit position) (n :: ns) [])
      with (visitAll (visit position) ns (visit position n [])).
    destruct (contains position n) eqn:Hc.
    + destruct (visit_root position n Hc) as (e & -> & _).
      destruct (visitAll_visit_extends position ns (TemplateNode n :: e))
        as (e' & -> & _).
      split.
      * intros Hl. apply last_None in Hl. discriminate.
      * intros HF. inversion HF; congruence.
    + rewrite visit_outside by exact Hc. rewrite IH.
      split; [by constructor | by inversion 1].
Qed.

Lemma candidateAt_contains ast position candidate :
  candidateAt ast position = Some candidate ->
  entryContains position candidate = true.
Proof.
  unfold candidateAt.
  destruct (visitAll_visit_extends position ast []) as (e & -> & He).
  simpl. intros Hl. apply last_Some in Hl as [l' ->].
  apply Forall_app in He as [_ He]. by inversion He.
Qed.

Lemma candidate_single position node :
  contains position node = true ->
  Forall (fun c => contains position c = false) (subNodes node) ->
  match node with
  | Element _ _ _ _ _ _ _ _ | Template _ _ _ _ _ _ _ _ _ _
  | Content _ _ _ | Icu _ _ _
  | Variable_ _ _ _ | Reference _ _ _ | TextAttribute _ _ _ | Text _ _ => True
  | _ => False
  end ->
  candidateAt [node] position = Some (TemplateNode node).
Proof.
  intros Hc Hsub Hkind. unfold candidateAt.
  change (visitAll (visit position) [node] []) with (visit position node []).
  rewrite visit_eq, Hc, largerThanLast_nil.
  pose proof (Node_visit_subNodes position (visit position) node
                ([] ++ [TemplateNode node])) as Hn.
  destruct node; try contradiction; try reflexivity;
    rewrite Hn, visitAll_outside by exact Hsub; reflexivity.
Qed.

(** ** The stated properties *)

(** C1 (as stated, refuted): the rule "a candidate whose span contains the
    offset but is not strictly smaller than the span of the last match is not
    descended into" does not describe [visit]. In [<b/><i/>] at offset 4 the
    second root has a span of the same length as the first one, which is
    already on the path, and is entered all the same. *)
Lemma equal_span_sibling_is_entered : ~ skipsUnlessStrictlySmaller.
Proof.
  intros Hclaim.
  specialize (Hclaim 4 PositionExamples.elemI
                [TemplateNode PositionExamples.elemB]
                (TemplateNode PositionExamples.elemB) eq_refl eq_refl).
  assert (Hvisit : visit 4 PositionExamples.elemI [TemplateNode PositionExamples.elemB]
                   = [TemplateNode PositionExamples.elemB]).
  { apply Hclaim. vm_compute. discriminate. }
  vm_compute in Hvisit. discriminate.
Qed.

(** C1 (amended): when the path has a last entry and the candidate's span
    contains the offset, [visit] leaves the path untouched exactly when the
    candidate's span is strictly longer than that entry's span; a candidate
    whose span is of equal length or shorter is pushed and dispatched to its
    visitor method, and stays on the path unless it is the event half of a
    two-way binding. *)
Theorem visit_skips_only_strictly_larger position node path lastEntry :
  last path = Some lastEntry ->
  contains position node = true ->
  (spanLength (getSpanIncludingEndTag node) > spanLength (entrySpan lastEntry) ->
   visit position node path = path) /\
  (spanLength (getSpanIncludingEndTag node) <= spanLength (entrySpan lastEntry) ->
   visit position node path =
     Node_visit position (visit position) node (path ++ [TemplateNode node]) /\
   (pairedEvent node path = false ->
    exists ext, visit position node path = path ++ TemplateNode node :: ext)).
Proof.
  intros Hlast Hc.
  pose proof (largerThanLast_last node path lastEntry Hlast) as Hl.
  rewrite Z.gtb_ltb in Hl. split.
  - intros Hgt. rewrite visit_eq, Hc, Hl.
    destruct (Z.ltb_spec (spanLength (entrySpan lastEntry))
                (spanLength (getSpanIncludingEndTag node))); [reflexivity | lia].
  - intros Hle.
    assert (Hnot : largerThanLast node path = false).
    { rewrite Hl. apply Z.ltb_ge. exact Hle. }
    split.
    + by rewrite visit_eq, Hc, Hnot.
    + intros Hp.
      destruct (visit_enters position node path Hc Hnot Hp) as (e & He & _).
      by exists e.
Qed.

Lemma visit_skips_only_strictly_larger_witness :
  (spanLength (getSpanIncludingEndTag PositionExamples.elemI)
     > spanLength (entrySpan (TemplateNode PositionExamples.elemB)) ->
   visit 4 PositionExamples.elemI [TemplateNode PositionExamples.elemB]
     = [TemplateNode PositionExamples.elemB]) /\
  (spanLength (getSpanIncludingEndTag PositionExamples.elemI)
     <= spanLength (entrySpan (TemplateNode PositionExamples.elemB)) ->
   visit 4 PositionExamples.elemI [TemplateNode PositionExamples.elemB] =
     Node_visit 4 (visit 4) PositionExamples.elemI
       ([TemplateNode PositionExamples.elemB] ++ [TemplateNode PositionExamples.elemI]) /\
   (pairedEvent PositionExamples.elemI [TemplateNode PositionExamples.elemB] = false ->
    exists ext,
      visit 4 PositionExamples.elemI [TemplateNode PositionExamples.elemB]
        = [TemplateNode PositionExamples.elemB]
            ++ TemplateNode PositionExamples.elemI :: ext)).
Proof.
  apply (visit_skips_only_strictly_larger 4 PositionExamples.elemI
           [TemplateNode PositionExamples.elemB]
           (TemplateNode PositionExamples.elemB));
    reflexivity.
Defined.




(** Spans being closed intervals, the start offset of the closing tag of
    [<div>hi</div>] is also the end offset of the text before it, and the
    lookup there answers with the text. *)
Remark closing_tag_start_shared_with_text :
  findNodeAtPosition [PositionExamples.divHi] 7
    = Some (TemplateNode PositionExamples.textHi).
Proof. vm_compute. reflexivity. Qed.

(** C7: [findNodeAtPosition] is a total function (it has no throwing path)
    and answers "no match" in exactly two situations: no root node's tested
    span contains the offset, or the located node, whose own span does
    contain the offset, is key/value-shaped with a value span and neither
    its key span nor its value span contains the offset. *)
Theorem findNodeAtPosition_undefined_iff ast position :
  findNodeAtPosition ast position = None <->
  Forall (fun root => contains position root = false) ast \/
  exists node kv valueSpan',
    candidateAt ast position = Some (TemplateNode node) /\
    contains position node = true /\
    isTemplateNodeWithKeyAndValue (TemplateNode node) = Some kv /\
    valueSpan kv = Some valueSpan' /\
    isWithin position (Parse (keySpan kv)) = false /\
    isWithin position (Parse valueSpan') = false.
Proof.
  unfold findNodeAtPosition. split.
  - destruct (candidateAt ast position) as [candidate|] eqn:Hcand.
    + pose proof (candidateAt_contains ast position candidate Hcand) as Hin.
      destruct (isTemplateNodeWithKeyAndValue candidate) as [[ks vs]|] eqn:Hkv;
        [|discriminate].
      destruct (isWithin position (Parse ks)) eqn:Hk; [discriminate|].
      destruct vs as [vs|]; [|discriminate].
      destruct (isWithin position (Parse vs)) eqn:Hv; [discriminate|].
      intros _. right.
      destruct candidate as [node | e]; [|discriminate].
      exists node, (mkKeyAndValue ks (Some vs)), vs. repeat split; assumption.
    + intros _. left. by apply candidateAt_None.
  - intros [Hout | (node & [ks vs] & vs' & Hcand & _ & Hkv & Hvs & Hk & Hv)].
    + apply candidateAt_None in Hout. by rewrite Hout.
    + simpl in Hvs, Hk. subst vs. rewrite Hcand, Hkv, Hk, Hv. reflexivity.
Qed.

(** C10: [isWithin] reads a span as a closed interval. For a span whose
    start does not exceed its end, the start offset and the end offset are
    both contained, and containment is exactly "start <= position <= end".
    A node whose tested span is that interval is entered at either boundary
    when visited from an empty path, and a text node is the result of the
    lookup there. *)
Theorem boundary_offsets_are_within (span : Span) :
  Span_start span <= Span_end span ->
  isWithin (Span_start span) span = true /\
  isWithin (Span_end span) span = true /\
  (forall position,
     isWithin position span = true <->
     Span_start span <= position <= Span_end span) /\
  (forall node position,
     Absolute (getSpanIncludingEndTag node) = span ->
     position = Span_start span \/ position = Span_end span ->
     (exists ext, visit position node [] = TemplateNode node :: ext) /\
     (forall value sourceSpan,
        node = Text value sourceSpan ->
        findNodeAtPosition [node] position = Some (TemplateNode node))).
Proof.
  intros Hwf. split; [apply isWithin_spec; lia|].
  split; [apply isWithin_spec; lia|].
  split; [intros position; apply isWithin_spec|].
  intros node position Hspan Hpos.
  assert (Hc : contains position node = true).
  { unfold contains. rewrite Hspan. apply isWithin_spec. lia. }
  split.
  - destruct (visit_root position node Hc) as (e & He & _). by exists e.
  - intros value sp ->. unfold findNodeAtPosition.
    rewrite (candidate_single position (Text value sp) Hc);
      [reflexivity | constructor | exact I].
Qed.

(** The text node [hello] at [0,5]: offsets 0 and 5 both resolve to it. *)
Lemma boundary_offsets_are_within_witness :
  isWithin 0 (Absolute (mkAbsoluteSourceSpan 0 5)) = true /\
  isWithin 5 (Absolute (mkAbsoluteSourceSpan 0 5)) = true /\
  findNodeAtPosition [PositionExamples.textHello] 0
    = Some (TemplateNode PositionExamples.textHello) /\
  findNodeAtPosition [PositionExamples.textHello] 5
    = Some (TemplateNode PositionExamples.textHello).
Proof.
  destruct (boundary_offsets_are_within (Absolute (mkAbsoluteSourceSpan 0 5)))
    as (Hs & He & _ & Hnode); [simpl; lia|].
  split; [exact Hs|]. split; [exact He|]. split.
  - destruct (Hnode PositionExamples.textHello 0 eq_refl) as [_ Hf];
      [left; reflexivity|].
    exact (Hf "hello" (PositionExamples.span 0 5) eq_refl).
  - destruct (Hnode PositionExamples.textHello 5 eq_refl) as [_ Hf];
      [right; reflexivity|].
    exact (Hf "hello" (PositionExamples.span 0 5) eq_refl).
Defined.

End PositionFacts.

(* ===================================================================== *)
(** * Properties of the translation message serializer                     *)
(* ===================================================================== *)

Module SerializerFacts.
Import TranslationSerializer.

Section Facts.
Variables Element HtmlNode ParseError ParsedTranslation : Type.
Variables MessageSerializerConfig MessageSerializer : Type.
Variable parseInnerRange : Element -> list HtmlNode * list ParseError.
Variable newMessageSerializer :
  MessageSerializerConfig -> Completion ParseError MessageSerializer.
Variable serialize :
  MessageSerializer -> list HtmlNode -> Completion ParseError ParsedTranslation.

Let serializeMessage :=
  serializeTranslationMessage Element HtmlNode ParseError ParsedTranslation
    MessageSerializerConfig MessageSerializer
    parseInnerRange newMessageSerializer serialize.

Let tryBlock :=
  serialization Element HtmlNode ParseError ParsedTranslation
    MessageSerializerConfig MessageSerializer
    parseInnerRange newMessageSerializer serialize.

Lemma serializeMessage_parseErrors element config :
  parseErrors (serializeMessage element config) = snd (parseInnerRange element).
Proof.
  unfold serializeMessage, serializeTranslationMessage.
  destruct (parseInnerRange element) as [rootNodes errors]. simpl.
  destruct (newMessageSerializer config) as [serializer|e]; simpl;
    [|reflexivity].
  destruct (serialize serializer rootNodes); reflexivity.
Qed.

Lemma serializeMessage_cases element config :
  match tryBlock element config with
  | Throw e =>
    translation (serializeMessage element config) = None /\
    serializeErrors (serializeMessage element config) = [e]
  | Normal t =>
    translation (serializeMessage element config) = Some t /\
    serializeErrors (serializeMessage element config) = []
  end.
Proof.
  unfold tryBlock, serialization, serializeMessage, serializeTranslationMessage.
  destruct (parseInnerRange element) as [rootNodes errors]. simpl.
  destruct (newMessageSerializer config) as [serializer|e]; simpl;
    [|split; reflexivity].
  destruct (serialize serializer rootNodes); simpl; split; reflexivity.
Qed.

End Facts.

(** C8: [serializeTranslationMessage] always returns a record with the two
    lists. Its [parseErrors] are the errors of [parseInnerRange], whatever
    the [try] block does. When the [try] block (constructing the serializer,
    then serializing the root nodes) throws [e], [translation] is null and
    [serializeErrors] is the one-element list [[e]]; when it completes with
    a translation [t], [translation] is [t] and [serializeErrors] is
    empty. *)
Theorem serializeTranslationMessage_error_lists
    (Element HtmlNode ParseError ParsedTranslation : Type)
    (MessageSerializerConfig MessageSerializer : Type)
    (parseInnerRange : Element -> list HtmlNode * list ParseError)
    (newMessageSerializer :
       MessageSerializerConfig -> Completion ParseError MessageSerializer)
    (serialize :
       MessageSerializer -> list HtmlNode -> Completion ParseError ParsedTranslation)
    (element : Element) (config : MessageSerializerConfig) :
  parseErrors
    (serializeTranslationMessage Element HtmlNode ParseError ParsedTranslation
       MessageSerializerConfig MessageSerializer
       parseInnerRange newMessageSerializer serialize element config)
  = snd (parseInnerRange element) /\
  match
    serialization Element HtmlNode ParseError ParsedTranslation
      MessageSerializerConfig MessageSerializer
      parseInnerRange newMessageSerializer serialize element config
  with
  | Throw e =>
    translation
      (serializeTranslationMessage Element HtmlNode ParseError ParsedTranslation
         MessageSerializerConfig MessageSerializer
         parseInnerRange newMessageSerializer serialize element config) = None /\
    serializeErrors
      (serializeTranslationMessage Element HtmlNode ParseError ParsedTranslation
         MessageSerializerConfig MessageSerializer
         parseInnerRange newMessageSerializer serialize element config) = [e]
  | Normal t =>
    translation
      (serializeTranslationMessage Element HtmlNode ParseError ParsedTranslation
         MessageSerializerConfig MessageSerializer
         parseInnerRange newMessageSerializer serialize element config) = Some t /\
    serializeErrors
      (serializeTranslationMessage Element HtmlNode ParseError ParsedTranslation
         MessageSerializerConfig MessageSerializer
         parseInnerRange newMessageSerializer serialize element config) = []
  end.
Proof.
  split.
  - apply serializeMessage_parseErrors.
  - apply serializeMessage_cases.
Qed.

(** A message with a parse error whose rendering throws, and one that
    renders. *)
Lemma toyMessage_examples :
  SerializerExamples.toyMessage ["Hello"; "?"; "i18n"]
    = mkSerializeResult None ["Unexpected character"] ["Nested i18n section"] /\
  SerializerExamples.toyMessage ["Hello"; "?"; "world"]
    = mkSerializeResult (Some "Hello world") ["Unexpected character"] [].
Proof. split; vm_compute; reflexivity. Qed.

End SerializerFacts.

(* ===================================================================== *)
(** * Further properties of the directive metadata flattener               *)
(* ===================================================================== *)

Module InheritanceExtra.
Import Inheritance InheritanceFacts.

Lemma addMetadata_walk reader m levels dynamic :
  Walk reader m levels dynamic ->
  forall fuel s, (length levels <= fuel)%nat ->
    addMetadata fuel reader m s =
    Some (foldr mergeLevel (if dynamic then setDynamic s else s) levels).
Proof.
  induction 1 as [m Hn | m Hd | m b Hb Hr | m b bm levels dynamic Hb Hr _ IH];
    intros [|fuel] s Hle; simpl in Hle; try lia; rewrite addMetadata_S.
  - by rewrite Hn.
  - by rewrite Hd.
  - by rewrite Hb, Hr.
  - rewrite Hb, Hr, IH by lia. reflexivity.
Qed.

Lemma addMetadata_Some_walk fuel : forall reader m s s',
  addMetadata fuel reader m s = Some s' ->
  exists levels dynamic,
    Walk reader m levels dynamic /\ (length levels <= fuel)%nat.
Proof.
  induction fuel as [|fuel IH]; intros reader m s s'; [discriminate|].
  rewrite addMetadata_S.
  destruct (baseClass m) as [| |b] eqn:Hb.
  - intros _. exists [m], false. split; [by constructor | simpl; lia].
  - intros _. exists [m], true. split; [by constructor | simpl; lia].
  - destruct (reader b) as [bm|] eqn:Hr.
    + destruct (addMetadata fuel reader bm s) as [s1|] eqn:Hrec; [|discriminate].
      intros _. destruct (IH reader bm s s1 Hrec) as (levels & dynamic & Hw & Hlen).
      exists (m :: levels), dynamic.
      split; [by eapply Walk_step | simpl; lia].
    + intros _. exists [m], true.
      split; [by eapply Walk_missing | simpl; lia].
Qed.

Lemma Walk_resolvable reader m levels :
  Walk reader m levels false -> Resolvable reader m levels.
Proof.
  remember false as dynamic eqn:Hdyn. induction 1; try discriminate.
  - by constructor.
  - eapply Resolvable_step; eauto.
Qed.

Lemma Walk_broken reader m levels :
  Walk reader m levels true -> Broken reader m.
Proof.
  remember true as dynamic eqn:Hdyn. induction 1; try discriminate.
  - by apply Broken_dynamic.
  - by eapply Broken_missing.
  - eapply Broken_above; eauto.
Qed.

Lemma Walk_head reader m levels dynamic :
  Walk reader m levels dynamic -> exists rest, levels = m :: rest.
Proof. destruct 1; eauto. Qed.

Lemma foldr_mergeLevel_dynamic_flag s levels :
  l_isDynamic (foldr mergeLevel s levels) = l_isDynamic s.
Proof. induction levels; simpl; auto. Qed.

Lemma foldr_mergeLevel_inputs_from s levels :
  l_inputs s = ∅ ->
  l_inputs (foldr mergeLevel s levels) = mergedMapping (inputs <$> levels).
Proof.
  intros Hs. induction levels as [|m ls IH]; simpl; [exact Hs | by rewrite IH].
Qed.

Lemma foldr_mergeLevel_outputs_from s levels :
  l_outputs s = ∅ ->
  l_outputs (foldr mergeLevel s levels) = mergedMapping (outputs <$> levels).
Proof.
  intros Hs. induction levels as [|m ls IH]; simpl; [exact Hs | by rewrite IH].
Qed.

Lemma foldr_mergeLevel_coerced_from s levels :
  l_coercedInputFields s = ∅ ->
  l_coercedInputFields (foldr mergeLevel s levels)
  = ⋃ (coercedInputFields <$> levels).
Proof.
  intros Hs. induction levels as [|m ls IH]; simpl; [exact Hs|].
  rewrite addFields_union, IH. set_solver.
Qed.

Lemma foldr_mergeLevel_undeclared_from s levels :
  l_undeclaredInputFields s = ∅ ->
  l_undeclaredInputFields (foldr mergeLevel s levels)
  = ⋃ (undeclaredInputFields <$> levels).
Proof.
  intros Hs. induction levels as [|m ls IH]; simpl; [exact Hs|].
  rewrite addFields_union, IH. set_solver.
Qed.

Lemma foldr_mergeLevel_restricted_from s levels :
  l_restrictedInputFields s = ∅ ->
  l_restrictedInputFields (foldr mergeLevel s levels)
  = ⋃ (restrictedInputFields <$> levels).
Proof.
  intros Hs. induction levels as [|m ls IH]; simpl; [exact Hs|].
  rewrite addFields_union, IH. set_solver.
Qed.

Lemma foldr_mergeLevel_stringLiteral_from s levels :
  l_stringLiteralInputFields s = ∅ ->
  l_stringLiteralInputFields (foldr mergeLevel s levels)
  = ⋃ (stringLiteralInputFields <$> levels).
Proof.
  intros Hs. induction levels as [|m ls IH]; simpl; [exact Hs|].
  rewrite addFields_union, IH. set_solver.
Qed.

(** The record the flattener builds from a walk. *)
Lemma flatten_of_walk reader dir topMeta levels dynamic fuel :
  reader dir = Some topMeta ->
  Walk reader topMeta levels dynamic ->
  (length levels <= fuel)%nat ->
  exists m,
    flattenInheritedDirectiveMetadata fuel reader dir = Returned m /\
    baseClass m = (if dynamic then Dynamic else NoBase) /\
    ref m = ref topMeta /\ name m = name topMeta /\
    selector m = selector topMeta /\
    inputs m = mergedMapping (inputs <$> levels) /\
    outputs m = mergedMapping (outputs <$> levels) /\
    coercedInputFields m = ⋃ (coercedInputFields <$> levels) /\
    undeclaredInputFields m = ⋃ (undeclaredInputFields <$> levels) /\
    restrictedInputFields m = ⋃ (restrictedInputFields <$> levels) /\
    stringLiteralInputFields m = ⋃ (stringLiteralInputFields <$> levels).
Proof.
  intros Hr Hw Hle.
  unfold flattenInheritedDirectiveMetadata. rewrite Hr.
  pose proof (addMetadata_walk reader topMeta levels dynamic Hw fuel
                initialLocals Hle) as Hadd.
  assert (Hbuilt : forall s0,
    l_inputs s0 = ∅ -> l_outputs s0 = ∅ ->
    l_coercedInputFields s0 = ∅ -> l_undeclaredInputFields s0 = ∅ ->
    l_restrictedInputFields s0 = ∅ -> l_stringLiteralInputFields s0 = ∅ ->
    l_isDynamic s0 = dynamic ->
    addMetadata fuel reader topMeta initialLocals = Some (foldr mergeLevel s0 levels) ->
    exists m,
      match addMetadata fuel reader topMeta initialLocals with
      | Some s =>
        Returned
          {| ref := ref topMeta; name := name topMeta; selector := selector topMeta;
             inputs := l_inputs s; outputs := l_outputs s;
             coercedInputFields := l_coercedInputFields s;
             undeclaredInputFields := l_undeclaredInputFields s;
             restrictedInputFields := l_restrictedInputFields s;
             stringLiteralInputFields := l_stringLiteralInputFields s;
             baseClass := if l_isDynamic s then Dynamic else NoBase |}
      | None => OutOfFuel
      end = Returned m /\
      baseClass m = (if dynamic then Dynamic else NoBase) /\
      ref m = ref topMeta /\ name m = name topMeta /\
      selector m = selector topMeta /\
      inputs m = mergedMapping (inputs <$> levels) /\
      outputs m = mergedMapping (outputs <$> levels) /\
      coercedInputFields m = ⋃ (coercedInputFields <$> levels) /\
      undeclaredInputFields m = ⋃ (undeclaredInputFields <$> levels) /\
      restrictedInputFields m = ⋃ (restrictedInputFields <$> levels) /\
      stringLiteralInputFields m = ⋃ (stringLiteralInputFields <$> levels)).
  { intros s0 H1 H2 H3 H4 H5 H6 H7 ->. eexists. split; [reflexivity|].
    cbv beta iota delta [baseClass ref name selector inputs outputs
      coercedInputFields undeclaredInputFields restrictedInputFields
      stringLiteralInputFields].
    rewrite foldr_mergeLevel_dynamic_flag, H7.
    rewrite foldr_mergeLevel_inputs_from, foldr_mergeLevel_outputs_from,
      foldr_mergeLevel_coerced_from, foldr_mergeLevel_undeclared_from,
      foldr_mergeLevel_restricted_from, foldr_mergeLevel_stringLiteral_from
      by assumption.
    repeat split; reflexivity. }
  destruct (baseClass topMeta) eqn:Hb.
  - inversion Hw; subst; try congruence.
    exists topMeta. split; [reflexivity|]. split; [exact Hb|].
    simpl. rewrite !merge_empty, !(right_id_L ∅ (∪)). repeat split; reflexivity.
  - destruct dynamic;
      [apply (Hbuilt (setDynamic initialLocals)) | apply (Hbuilt initialLocals)];
      try reflexivity; exact Hadd.
  - destruct dynamic;
      [apply (Hbuilt (setDynamic initialLocals)) | apply (Hbuilt initialLocals)];
      try reflexivity; exact Hadd.
Qed.

Lemma addMetadata_climbs fuel : forall reader m s,
  Climbs reader fuel m -> addMetadata fuel reader m s = None.
Proof.
  induction fuel as [|fuel IH]; intros reader m s Hc; [reflexivity|].
  destruct Hc as (b & bm & Hb & Hr & Hc).
  rewrite addMetadata_S, Hb, Hr, (IH reader bm s Hc). reflexivity.
Qed.

Lemma loop_climbs n :
  Climbs InheritanceExamples.loopReader n InheritanceExamples.metaLoop.
Proof.
  induction n as [|n IH]; simpl; [exact I|].
  exists InheritanceExamples.refA, InheritanceExamples.metaLoop. auto.
Qed.

(** ** Properties *)

(** X1: a chain that breaks (a level with base class ['dynamic'], or a base
    class the reader does not know) is not discarded: the flattener returns
    a record marked ['dynamic'] whose mappings and field sets are the merge
    of every level it reached before the break, each key carrying the entry
    of the most derived level declaring it, and whose other fields are the
    directive's own. *)
Theorem flatten_broken_chain_keeps_reached_levels reader dir topMeta levels :
  reader dir = Some topMeta ->
  Walk reader topMeta levels true ->
  forall fuel, (length levels <= fuel)%nat ->
    exists m,
      flattenInheritedDirectiveMetadata fuel reader dir = Returned m /\
      baseClass m = Dynamic /\
      ref m = ref topMeta /\ name m = name topMeta /\
      selector m = selector topMeta /\
      (forall k, inputs m !! k = firstDeclared k (inputs <$> levels)) /\
      (forall k, outputs m !! k = firstDeclared k (outputs <$> levels)) /\
      coercedInputFields m = ⋃ (coercedInputFields <$> levels) /\
      undeclaredInputFields m = ⋃ (undeclaredInputFields <$> levels) /\
      restrictedInputFields m = ⋃ (restrictedInputFields <$> levels) /\
      stringLiteralInputFields m = ⋃ (stringLiteralInputFields <$> levels).
Proof.
  intros Hr Hw fuel Hle.
  destruct (flatten_of_walk reader dir topMeta levels true fuel Hr Hw Hle)
    as (m & Hm & Hb & Href & Hname & Hsel & Hin & Hout & Hsets).
  exists m. split; [exact Hm|]. split; [exact Hb|].
  split; [exact Href|]. split; [exact Hname|]. split; [exact Hsel|].
  split; [intros k; rewrite Hin; apply mergedMapping_lookup|].
  split; [intros k; rewrite Hout; apply mergedMapping_lookup|].
  exact Hsets.
Qed.

(** A -> B -> C with the root class C unknown: A and B are merged. *)
Lemma flatten_broken_chain_keeps_reached_levels_witness :
  exists m,
    flattenInheritedDirectiveMetadata 2 InheritanceExamples.tailGapReader
      InheritanceExamples.refA = Returned m /\
    baseClass m = Dynamic /\
    inputs m !! "value" = Some "alias" /\
    inputs m !! "label" = Some "label" /\
    inputs m !! "cId" = None.
Proof.
  destruct (flatten_broken_chain_keeps_reached_levels
              InheritanceExamples.tailGapReader InheritanceExamples.refA
              InheritanceExamples.metaA
              [InheritanceExamples.metaA; InheritanceExamples.metaB])
    with (fuel := 2%nat)
    as (m & Hm & Hb & _ & _ & _ & Hin & _).
  - reflexivity.
  - eapply Walk_step; [reflexivity | reflexivity |].
    eapply Walk_missing; reflexivity.
  - simpl. lia.
  - exists m. split; [exact Hm|]. split; [exact Hb|].
    rewrite !Hin. repeat split; reflexivity.
Defined.

(** X2: the walk keeps no record of the classes it has seen. When the
    base-class references never end (a class hierarchy with a cycle), no
    recursion bound is enough: the flattener neither returns nor throws. *)
Theorem flatten_endless_chain_never_returns reader dir topMeta :
  reader dir = Some topMeta ->
  (forall n, Climbs reader n topMeta) ->
  forall fuel, flattenInheritedDirectiveMetadata fuel reader dir = OutOfFuel.
Proof.
  intros Hr Hc fuel. unfold flattenInheritedDirectiveMetadata. rewrite Hr.
  destruct (Hc 1%nat) as (b & bm & Hb & _). rewrite Hb.
  by rewrite (addMetadata_climbs fuel reader topMeta initialLocals (Hc fuel)).
Qed.

Lemma flatten_endless_chain_never_returns_witness :
  flattenInheritedDirectiveMetadata 1 InheritanceExamples.loopReader
    InheritanceExamples.refA = OutOfFuel /\
  flattenInheritedDirectiveMetadata 1000 InheritanceExamples.loopReader
    InheritanceExamples.refA = OutOfFuel.
Proof.
  split;
    apply (flatten_endless_chain_never_returns InheritanceExamples.loopReader
             InheritanceExamples.refA InheritanceExamples.metaLoop eq_refl
             loop_climbs).
Defined.

(** X3: the mark on a returned record is exact. A record returned with
    [baseClass] null comes from a chain that the reader resolves up to a
    class without base class, and a record returned with ['dynamic'] comes
    from a chain that is broken. *)
Theorem flatten_mark_is_exact fuel reader dir m :
  flattenInheritedDirectiveMetadata fuel reader dir = Returned m ->
  exists topMeta,
    reader dir = Some topMeta /\
    ((baseClass m = NoBase /\ exists levels, Resolvable reader topMeta levels) \/
     (baseClass m = Dynamic /\ Broken reader topMeta)).
Proof.
  unfold flattenInheritedDirectiveMetadata.
  destruct (reader dir) as [top|] eqn:Hr; [|discriminate].
  intros Hflat. exists top. split; [reflexivity|].
  assert (Hwalked : forall s,
    addMetadata fuel reader top initialLocals = Some s ->
    (l_isDynamic s = false /\ exists levels, Resolvable reader top levels) \/
    (l_isDynamic s = true /\ Broken reader top)).
  { intros s Hs.
    destruct (addMetadata_Some_walk fuel reader top initialLocals s Hs)
      as (levels & dynamic & Hw & Hlen).
    rewrite (addMetadata_walk reader top levels dynamic Hw fuel initialLocals Hlen)
      in Hs.
    injection Hs as <-. rewrite foldr_mergeLevel_dynamic_flag.
    destruct dynamic; simpl.
    - right. split; [reflexivity | by eapply Walk_broken].
    - left. split; [reflexivity|]. exists levels. by apply Walk_resolvable. }
  destruct (baseClass top) eqn:Hb.
  - injection Hflat as <-. left. split; [exact Hb|].
    exists [top]. by constructor.
  - destruct (addMetadata fuel reader top initialLocals) as [s|] eqn:Hs;
      [|discriminate].
    injection Hflat as <-. simpl.
    destruct (Hwalked s eq_refl) as [[-> H] | [-> H]]; auto.
  - destruct (addMetadata fuel reader top initialLocals) as [s|] eqn:Hs;
      [|discriminate].
    injection Hflat as <-. simpl.
    destruct (Hwalked s eq_refl) as [[-> H] | [-> H]]; auto.
Qed.

Lemma flatten_mark_is_exact_witness :
  exists topMeta,
    InheritanceExamples.gapReader InheritanceExamples.refA = Some topMeta /\
    ((baseClass InheritanceExamples.flatA_gap = NoBase /\
      exists levels, Resolvable InheritanceExamples.gapReader topMeta levels) \/
     (baseClass InheritanceExamples.flatA_gap = Dynamic /\
      Broken InheritanceExamples.gapReader topMeta)).
Proof.
  apply (flatten_mark_is_exact 1 InheritanceExamples.gapReader
           InheritanceExamples.refA InheritanceExamples.flatA_gap).
  vm_compute. reflexivity.
Defined.

(** X4: whatever the chain looks like, flattening never loses what the
    directive itself declares: every input and output entry of the
    directive's own metadata is in the returned record with the same value
    (the directive is merged last, so it wins every collision), the
    directive's four field sets are included in the returned ones, and the
    fields the flattener does not compute are copied. *)
Theorem flatten_keeps_own_declarations fuel reader dir topMeta m :
  reader dir = Some topMeta ->
  flattenInheritedDirectiveMetadata fuel reader dir = Returned m ->
  ref m = ref topMeta /\ name m = name topMeta /\
  selector m = selector topMeta /\
  (forall k v, inputs topMeta !! k = Some v -> inputs m !! k = Some v) /\
  (forall k v, outputs topMeta !! k = Some v -> outputs m !! k = Some v) /\
  coercedInputFields topMeta ⊆ coercedInputFields m /\
  undeclaredInputFields topMeta ⊆ undeclaredInputFields m /\
  restrictedInputFields topMeta ⊆ restrictedInputFields m /\
  stringLiteralInputFields topMeta ⊆ stringLiteralInputFields m.
Proof.
  intros Hr. unfold flattenInheritedDirectiveMetadata. rewrite Hr.
  assert (Hlast : forall s,
    addMetadata fuel reader topMeta initialLocals = Some s ->
    exists s', s = mergeLevel topMeta s').
  { destruct fuel as [|fuel]; [discriminate|]. intros s.
    rewrite addMetadata_S.
    destruct (match baseClass topMeta with
              | NoBase => Some initialLocals
              | Dynamic => Some (setDynamic initialLocals)
              | Base b =>
                match reader b with
                | Some baseMeta => addMetadata fuel reader baseMeta initialLocals
                | None => Some (setDynamic initialLocals)
                end
              end) as [s'|]; [|discriminate].
    intros [= <-]. by exists s'. }
  assert (Hbuilt : forall s,
    addMetadata fuel reader topMeta initialLocals = Some s ->
    (forall k v, inputs topMeta !! k = Some v -> l_inputs s !! k = Some v) /\
    (forall k v, outputs topMeta !! k = Some v -> l_outputs s !! k = Some v) /\
    coercedInputFields topMeta ⊆ l_coercedInputFields s /\
    undeclaredInputFields topMeta ⊆ l_undeclaredInputFields s /\
    restrictedInputFields topMeta ⊆ l_restrictedInputFields s /\
    stringLiteralInputFields topMeta ⊆ l_stringLiteralInputFields s).
  { intros s Hs. destruct (Hlast s Hs) as [s' ->]. simpl.
    rewrite !addFields_union.
    split; [intros k v Hk; by rewrite merge_lookup, Hk|].
    split; [intros k v Hk; by rewrite merge_lookup, Hk|].
    repeat split; set_solver. }
  destruct (baseClass topMeta) eqn:Hb.
  - intros [= <-]. repeat split; auto.
  - destruct (addMetadata fuel reader topMeta initialLocals) as [s|] eqn:Hs;
      [|discriminate].
    intros [= <-]. simpl. destruct (Hbuilt s eq_refl) as (? & ? & ? & ? & ? & ?).
    repeat split; assumption.
  - destruct (addMetadata fuel reader topMeta initialLocals) as [s|] eqn:Hs;
      [|discriminate].
    intros [= <-]. simpl. destruct (Hbuilt s eq_refl) as (? & ? & ? & ? & ? & ?).
    repeat split; assumption.
Qed.

(** The full chain A -> B -> C: A's output [changed] keeps A's public name
    although C declares it too. *)
Lemma flatten_keeps_own_declarations_witness :
  exists m,
    flattenInheritedDirectiveMetadata 3 InheritanceExamples.fullReader
      InheritanceExamples.refA = Returned m /\
    outputs m !! "changed" = Some "aChanged" /\
    inputs m !! "label" = Some "label" /\
    selector m = Some "[a]".
Proof.
  destruct (flattenInheritedDirectiveMetadata 3 InheritanceExamples.fullReader
              InheritanceExamples.refA) as [m| |] eqn:Hflat;
    [|vm_compute in Hflat; discriminate | vm_compute in Hflat; discriminate].
  destruct (flatten_keeps_own_declarations 3 InheritanceExamples.fullReader
              InheritanceExamples.refA InheritanceExamples.metaA m eq_refl Hflat)
    as (_ & _ & Hsel & Hin & Hout & _).
  exists m. split; [reflexivity|].
  split; [apply Hout; reflexivity|].
  split; [apply Hin; reflexivity | exact Hsel].
Defined.

End InheritanceExtra.

(* ===================================================================== *)
(** * Properties of the async pipe                                         *)
(* ===================================================================== *)

Module AsyncPipeFacts.
Import TranslationSerializer AsyncPipe.

Section Facts.
Context {Value : Type}.
Implicit Types (st : State Value) (o : AsyncObject Value).

Lemma sameObject_true o1 o2 : sameObject o1 o2 = true <-> ident o1 = ident o2.
Proof. unfold sameObject. apply bool_decide_eq_true. Qed.

Lemma sameObject_false o1 o2 : sameObject o1 o2 = false <-> ident o1 <> ident o2.
Proof. unfold sameObject. apply bool_decide_eq_false. Qed.

Lemma sameObject_refl o : sameObject o o = true.
Proof. by apply sameObject_true. Qed.

(** The callback of the object the pipe is bound to stores each value and
    marks the view. *)
Lemma deliver_bound o values : forall st current,
  _obj st = Some current -> ident o = ident current ->
  deliver (_updateLatestValue o) values st =
  (mkState (default (_latestValue st) (last values)) (_subscription st)
     (_obj st) (_strategy st)
     (trace st ++ map (fun _ => MarkForCheck) values), Normal tt).
Proof.
  induction values as [|v vs IH]; intros [l s ob str tr] current Hobj Hid;
    simpl in Hobj; subst ob.
  - simpl. by rewrite app_nil_r.
  - simpl. unfold andThen at 1. unfold _updateLatestValue at 1. simpl.
    rewrite (proj2 (sameObject_true o current) Hid).
    simpl. erewrite IH; [|simpl; reflexivity | exact Hid].
    simpl. rewrite <- app_assoc. simpl.
    destruct vs as [|v' vs']; [reflexivity|].
    change (last (v :: v' :: vs')) with (last (v' :: vs')).
    destruct (last (v' :: vs')) eqn:Hl; [reflexivity|].
    by apply last_None in Hl.
Qed.

Lemma subscribe_accepted o st :
  accepted o = true ->
  _subscribe o st =
  (mkState (default (_latestValue st) (last (emitsAtOnce o)))
     (Some (subscriptionOf o)) (Some o) (Some (strategyOf o))
     (trace st ++ acquire o), Normal tt).
Proof.
  intros Hacc. unfold _subscribe, _selectStrategy, accepted in *.
  unfold andThen at 1. simpl. unfold andThen at 1.
  unfold strategyOf, subscriptionOf, acquire.
  destruct (hasThen o) eqn:Ht; simpl.
  - unfold andThen at 1. simpl. unfold andThen at 1.
    unfold createSubscription. unfold andThen at 1. simpl.
    unfold andThen at 1.
    erewrite deliver_bound; [|simpl; reflexivity | reflexivity].
    simpl. by rewrite <- app_assoc.
  - simpl in Hacc. rewrite Hacc. simpl.
    unfold andThen at 1. simpl. unfold andThen at 1.
    unfold createSubscription. unfold andThen at 1. simpl.
    unfold andThen at 1.
    erewrite deliver_bound; [|simpl; reflexivity | reflexivity].
    simpl. by rewrite <- app_assoc.
Qed.

Lemma subscribe_rejected o st :
  accepted o = false ->
  _subscribe o st =
  (mkState (_latestValue st) (_subscription st) (Some o) (_strategy st)
     (trace st), Throw (InvalidPipeArgument (ident o))).
Proof.
  intros Hacc. unfold accepted in Hacc. apply orb_false_iff in Hacc as [Ht Hs].
  unfold _subscribe, _selectStrategy. unfold andThen at 1. simpl.
  unfold andThen at 1. by rewrite Ht, Hs.
Qed.

Lemma Settled_accepted st o :
  Settled st -> _obj st = Some o -> accepted o = true.
Proof.
  unfold Settled, accepted. intros Hs Ho. rewrite Ho in Hs.
  destruct Hs as [(-> & _) | (_ & -> & _)]; [reflexivity | apply orb_true_r].
Qed.

Lemma dispose_settled st current :
  Settled st -> _obj st = Some current ->
  _dispose st =
  (mkState None None None (_strategy st) (trace st ++ release current), Normal tt).
Proof.
  unfold Settled. destruct st as [l s ob str tr]. simpl. intros Hs ->.
  unfold _dispose, release.
  destruct Hs as [(Ht & -> & ->) | (Ht & _ & -> & ->)]; rewrite Ht;
    unfold dispose, andThen, set_latestValue, set_subscription, set_obj,
      emit, ret; simpl;
    rewrite ?app_nil_r; reflexivity.
Qed.

Lemma dispose_normal st st' :
  _dispose st = (st', Normal tt) ->
  _obj st' = None /\ _latestValue st' = None /\ _subscription st' = None /\
  _strategy st' = _strategy st.
Proof.
  unfold _dispose, dispose.
  destruct (_strategy st) as [[|]|] eqn:Hst;
    unfold andThen, set_latestValue, set_subscription, set_obj, emit, ret,
      throw; simpl.
  - intros [= <-]. auto.
  - destruct (_subscription st) as [[src|src]|]; simpl; try discriminate.
    intros [= <-]. auto.
  - discriminate.
Qed.

Lemma Settled_bound o latest trace' :
  accepted o = true ->
  Settled (mkState latest (Some (subscriptionOf o)) (Some o)
             (Some (strategyOf o)) trace').
Proof.
  unfold accepted, Settled, subscriptionOf, strategyOf. simpl.
  destruct (hasThen o); simpl; intros Hacc; [left | right]; auto.
Qed.

Lemma Settled_unbound strategy trace' :
  Settled (Value := Value) (mkState None None None strategy trace').
Proof. split; reflexivity. Qed.

(** [transform] on an unbound pipe. *)
Lemma transform_unbound fuel obj st :
  _obj st = None ->
  transform (S fuel) obj st =
  match obj with
  | Some o =>
    Some (andThen (_subscribe o) (fun _ st' => (st', Normal (_latestValue st'))) st)
  | None => Some (st, Normal (_latestValue st))
  end.
Proof. intros Ho. simpl. by rewrite Ho. Qed.

Lemma transform_bound fuel obj st current :
  _obj st = Some current ->
  transform (S fuel) obj st =
  if differs obj current then
    match _dispose st with
    | (st', Normal _) => transform fuel obj st'
    | (st', Throw e) => Some (st', Throw e)
    end
  else Some (st, Normal (_latestValue st)).
Proof. intros Ho. simpl. by rewrite Ho. Qed.

(** What one call of [transform] does to a settled pipe. *)
Lemma transform_settled st obj :
  Settled st ->
  transform 2 obj st =
  Some
    match obj with
    | None =>
      (mkState None None None (_strategy st) (trace st ++ released st),
       Normal None)
    | Some o =>
      if match _obj st with
         | Some current => sameObject o current
         | None => false
         end
      then (st, Normal (_latestValue st))
      else if accepted o
      then (mkState (valueAtOnce o) (Some (subscriptionOf o)) (Some o)
              (Some (strategyOf o)) (trace st ++ released st ++ acquire o),
            Normal (valueAtOnce o))
      else (mkState None None (Some o) (_strategy st) (trace st ++ released st),
            Throw (InvalidPipeArgument (ident o)))
    end.
Proof.
  intros Hs. unfold released.
  destruct (_obj st) as [current|] eqn:Ho.
  - rewrite (transform_bound 1 obj st current Ho).
    rewrite (dispose_settled st current Hs Ho).
    destruct obj as [o|]; simpl.
    + destruct (sameObject o current); simpl; [reflexivity|].
      unfold andThen. destruct (accepted o) eqn:Hacc.
      * rewrite (subscribe_accepted o _ Hacc). simpl.
        by rewrite <- app_assoc.
      * by rewrite (subscribe_rejected o _ Hacc).
    + reflexivity.
  - rewrite (transform_unbound 1 obj st Ho).
    unfold Settled in Hs. rewrite Ho in Hs. destruct Hs as [Hl Hsub].
    destruct st as [l s ob str tr]. simpl in *. subst.
    destruct obj as [o|]; simpl; rewrite ?app_nil_r; [|reflexivity].
    unfold andThen. destruct (accepted o) eqn:Hacc.
    + by rewrite (subscribe_accepted o _ Hacc).
    + by rewrite (subscribe_rejected o _ Hacc).
Qed.

(** After a call that returns, the pipe is bound to the object it was given
    and the value returned is the one it holds. *)
Lemma transform_returns_bound st o st' v :
  transform 2 (Some o) st = Some (st', Normal v) ->
  v = _latestValue st' /\
  exists current, _obj st' = Some current /\ ident o = ident current.
Proof.
  assert (Hsub : forall st0,
    andThen (_subscribe o) (fun _ st1 => (st1, Normal (_latestValue st1))) st0
      = (st', Normal v) ->
    v = _latestValue st' /\
    exists current, _obj st' = Some current /\ ident o = ident current).
  { intros st0. unfold andThen. destruct (accepted o) eqn:Hacc.
    - rewrite (subscribe_accepted o st0 Hacc). intros [= <- <-]. simpl. eauto.
    - rewrite (subscribe_rejected o st0 Hacc). discriminate. }
  destruct (_obj st) as [current|] eqn:Ho.
  - rewrite (transform_bound 1 (Some o) st current Ho). cbn [differs].
    destruct (sameObject o current) eqn:Hsame; cbn [negb].
    + intros [= <- <-]. split; [reflexivity|].
      exists current. split; [exact Ho | by apply sameObject_true].
    + destruct (_dispose st) as [st1 [[]|e]] eqn:Hd; [|discriminate].
      destruct (dispose_normal st st1 Hd) as (Ho1 & _).
      rewrite (transform_unbound 0 (Some o) st1 Ho1).
      intros [= H]. by apply (Hsub st1).
  - rewrite (transform_unbound 1 (Some o) st Ho).
    intros [= H]. by apply (Hsub st).
Qed.

Lemma openSubscriptions_app (a b : list Effect) opened :
  openSubscriptions (a ++ b) opened = openSubscriptions b (openSubscriptions a opened).
Proof.
  revert opened. induction a as [|e a IH]; intros opened; [reflexivity|].
  destruct e; simpl; apply IH.
Qed.

Lemma openSubscriptions_marks (values : list (option Value)) opened :
  openSubscriptions (map (fun _ => MarkForCheck) values) opened = opened.
Proof. induction values; simpl; auto. Qed.

Lemma openSubscriptions_released st :
  openSubscriptions (released st) (held st) = [].
Proof.
  unfold released, held, release. destruct (_obj st) as [current|]; [|reflexivity].
  destruct (hasThen current); [reflexivity|]. simpl.
  by rewrite decide_True.
Qed.

(** Subscribing twice and unsubscribing once leaves a subscription open. *)
Remark resubscribing_trace_is_open :
  openSubscriptions [Subscribe 1; Subscribe 1; Unsubscribe 1] [] = [1%positive].
Proof. reflexivity. Qed.

Lemma openSubscriptions_acquire o :
  openSubscriptions (acquire o) [] = if hasThen o then [] else [ident o].
Proof.
  unfold acquire. destruct (hasThen o); simpl; apply openSubscriptions_marks.
Qed.

(** A settled pipe whose trace has exactly the held subscription open. *)
Lemma transform_balanced st obj st' v :
  Settled st -> openSubscriptions (trace st) [] = held st ->
  transform 2 obj st = Some (st', Normal v) ->
  Settled st' /\ openSubscriptions (trace st') [] = held st'.
Proof.
  intros Hs Hbal. rewrite (transform_settled st obj Hs).
  destruct obj as [o|].
  - destruct (match _obj st with
              | Some current => sameObject o current
              | None => false
              end).
    + intros [= <- <-]. auto.
    + destruct (accepted o) eqn:Hacc; [|discriminate].
      intros [= <- <-]. split; [by apply Settled_bound|].
      simpl. rewrite !openSubscriptions_app, Hbal, openSubscriptions_released.
      apply openSubscriptions_acquire.
  - intros [= <- <-]. split; [apply Settled_unbound|].
    simpl. rewrite openSubscriptions_app, Hbal. apply openSubscriptions_released.
Qed.

Lemma transformAll_balanced inputs : forall st st',
  Settled st -> openSubscriptions (trace st) [] = held st ->
  transformAll inputs st = Some st' ->
  Settled st' /\ openSubscriptions (trace st') [] = held st'.
Proof.
  induction inputs as [|obj rest IH]; intros st st' Hs Hbal;
    cbn [transformAll].
  - intros [= <-]. auto.
  - destruct (transform 2 obj st) as [[st1 [v|e]]|] eqn:Ht; try discriminate.
    destruct (transform_balanced st obj st1 v Hs Hbal Ht) as [Hs1 Hbal1].
    by apply IH.
Qed.

Lemma ngOnDestroy_settled st :
  Settled st ->
  ngOnDestroy st =
  (mkState None None None (_strategy st) (trace st ++ released st), Normal tt).
Proof.
  intros Hs. unfold ngOnDestroy, released.
  destruct (_obj st) as [current|] eqn:Ho.
  - rewrite <- (dispose_settled st current Hs Ho).
    pose proof Hs as Hs'. unfold Settled in Hs'. rewrite Ho in Hs'.
    by destruct Hs' as [(_ & _ & ->) | (_ & _ & _ & ->)].
  - unfold Settled in Hs. rewrite Ho in Hs. destruct Hs as [Hl Hsub].
    rewrite Hsub. destruct st as [l s ob str tr]. simpl in *. subst.
    by rewrite app_nil_r.
Qed.

(** ** Properties *)

(** X6: [transform] calls itself at most once. Whatever the state of the
    pipe and whatever it is given, the call ends (it returns or throws), and
    a recursion depth of two is all it ever uses. *)
Theorem transform_recurses_at_most_once fuel obj st :
  transform (S (S fuel)) obj st = transform 2 obj st /\
  exists st' completion, transform 2 obj st = Some (st', completion).
Proof.
  destruct (_obj st) as [current|] eqn:Ho.
  - rewrite (transform_bound (S fuel) obj st current Ho),
      (transform_bound 1 obj st current Ho).
    destruct (differs obj current); [|eauto].
    destruct (_dispose st) as [st1 [[]|e]] eqn:Hd; [|eauto].
    destruct (dispose_normal st st1 Hd) as (Ho1 & _).
    rewrite (transform_unbound fuel obj st1 Ho1),
      (transform_unbound 0 obj st1 Ho1).
    split; [reflexivity|].
    destruct obj as [o|]; [|eauto].
    destruct (andThen (_subscribe o)
                (fun _ st' => (st', Normal (_latestValue st'))) st1); eauto.
  - rewrite (transform_unbound (S fuel) obj st Ho),
      (transform_unbound 1 obj st Ho).
    split; [reflexivity|].
    destruct obj as [o|]; [|eauto].
    destruct (andThen (_subscribe o)
                (fun _ st' => (st', Normal (_latestValue st'))) st); eauto.
Qed.

(** X7: a call of [transform] that returns leaves a settled pipe settled:
    the pipe is then bound to nothing, holding no value and no subscription,
    or bound to a promise or observable with the strategy and subscription
    of that very object. *)
Theorem transform_keeps_settled st obj st' v :
  Settled st ->
  transform 2 obj st = Some (st', Normal v) ->
  Settled st' /\ v = _latestValue st'.
Proof.
  intros Hs. rewrite (transform_settled st obj Hs).
  destruct obj as [o|].
  - destruct (match _obj st with
              | Some current => sameObject o current
              | None => false
              end).
    + intros [= <- <-]. auto.
    + destruct (accepted o) eqn:Hacc; [|discriminate].
      intros [= <- <-]. split; [by apply Settled_bound | reflexivity].
  - intros [= <- <-]. split; [apply Settled_unbound | reflexivity].
Qed.

(** X8: on a settled pipe [transform] throws in one situation only: it is
    given an object that is neither a promise nor an observable and that is
    not the object it is bound to. The error is the invalid-argument error
    for that object; disposing of the previous binding never fails. *)
Theorem transform_throws_only_invalid_argument st obj st' e :
  Settled st ->
  transform 2 obj st = Some (st', Throw e) ->
  exists o,
    obj = Some o /\ hasThen o = false /\ hasSubscribe o = false /\
    e = InvalidPipeArgument (ident o).
Proof.
  intros Hs. rewrite (transform_settled st obj Hs).
  destruct obj as [o|]; [|discriminate].
  destruct (match _obj st with
            | Some current => sameObject o current
            | None => false
            end); [discriminate|].
  destruct (accepted o) eqn:Hacc; [discriminate|].
  intros [= <- <-]. exists o. unfold accepted in Hacc.
  apply orb_false_iff in Hacc as [Ht Hsub]. auto.
Qed.

(** X9: asking again is free. After a call [transform(o)] that returned,
    calling [transform(o)] again returns the same value and changes nothing:
    no field is written and no call is made on the object. *)
Theorem transform_again_changes_nothing st o st' v :
  transform 2 (Some o) st = Some (st', Normal v) ->
  transform 2 (Some o) st' = Some (st', Normal v).
Proof.
  intros Ht.
  destruct (transform_returns_bound st o st' v Ht) as (-> & current & Ho & Hid).
  rewrite (transform_bound 1 (Some o) st' current Ho). simpl.
  by rewrite (proj2 (sameObject_true o current) Hid).
Qed.

(** X10: giving [null] to a settled pipe unbinds it: the observable it was
    subscribed to is unsubscribed (a promise cannot be), the held value
    and the subscription are dropped, and [null] is returned. *)
Theorem transform_null_unbinds st :
  Settled st ->
  transform 2 None st =
  Some (mkState None None None (_strategy st) (trace st ++ released st),
        Normal None).
Proof. intros Hs. by rewrite (transform_settled st None Hs). Qed.

(** X11: giving a settled pipe a promise or observable other than the one it
    is bound to rebinds it: first the calls releasing the previous object,
    then the subscription to the new one; the held value starts again from
    [null], so what is returned is the last value the new object delivered
    at once, or [null]. Nothing of the previous object's value survives. *)
Theorem transform_rebinds st o :
  Settled st ->
  accepted o = true ->
  (forall current, _obj st = Some current -> ident o <> ident current) ->
  transform 2 (Some o) st =
  Some (mkState (valueAtOnce o) (Some (subscriptionOf o)) (Some o)
          (Some (strategyOf o)) (trace st ++ released st ++ acquire o),
        Normal (valueAtOnce o)).
Proof.
  intros Hs Hacc Hother. rewrite (transform_settled st (Some o) Hs), Hacc.
  destruct (_obj st) as [current|]; [|reflexivity].
  by rewrite (proj2 (sameObject_false o current) (Hother current eq_refl)).
Qed.

(** X12: once [transform(o)] has returned, a value arriving from any other
    object (one the pipe was bound to before, say) is dropped: no field
    changes and the view is not marked. *)
Theorem foreign_values_are_ignored st o st' v other value :
  transform 2 (Some o) st = Some (st', Normal v) ->
  ident other <> ident o ->
  _updateLatestValue other value st' = (st', Normal tt).
Proof.
  intros Ht Hother.
  destruct (transform_returns_bound st o st' v Ht) as (_ & current & Ho & Hid).
  unfold _updateLatestValue. rewrite Ho.
  assert (Hne : ident other <> ident current) by congruence.
  by rewrite (proj2 (sameObject_false other current) Hne).
Qed.

(** X13: once [transform(o)] has returned, a value arriving from [o] is
    stored and the view is marked for check exactly once; the next
    [transform(o)] returns that value without any further call. *)
Theorem delivered_value_is_returned st o st' v value :
  transform 2 (Some o) st = Some (st', Normal v) ->
  exists st'',
    _updateLatestValue o value st' = (st'', Normal tt) /\
    trace st'' = trace st' ++ [MarkForCheck] /\
    transform 2 (Some o) st'' = Some (st'', Normal value).
Proof.
  intros Ht.
  destruct (transform_returns_bound st o st' v Ht) as (_ & current & Ho & Hid).
  unfold _updateLatestValue. rewrite Ho.
  rewrite (proj2 (sameObject_true o current) Hid).
  eexists. split; [reflexivity|]. split; [reflexivity|].
  erewrite transform_bound; [|simpl; exact Ho]. simpl.
  by rewrite (proj2 (sameObject_true o current) Hid).
Qed.

(** X14: no subscription leaks. After any sequence of calls of [transform]
    on a new pipe, none of which throws, [ngOnDestroy] returns and every
    observable subscription the pipe has opened has been unsubscribed: each
    [subscribe] call in the trace is answered by an [unsubscribe] call of
    its own. *)
Theorem no_subscription_leak inputs st :
  transformAll inputs (newPipe (Value := Value)) = Some st ->
  exists st',
    ngOnDestroy st = (st', Normal tt) /\
    openSubscriptions (trace st') [] = [].
Proof.
  intros Hall.
  destruct (transformAll_balanced inputs newPipe st) as [Hs Hbal];
    [split; reflexivity | reflexivity | exact Hall |].
  rewrite (ngOnDestroy_settled st Hs). eexists. split; [reflexivity|].
  simpl. rewrite openSubscriptions_app, Hbal. apply openSubscriptions_released.
Qed.

(** X15: a rejected object is remembered. When an unbound pipe is given an
    object that is neither a promise nor an observable, [transform] throws
    the invalid-argument error, but [_obj] has already been assigned: given
    the same object again, [transform] returns the held value without
    throwing; and on a pipe that never had a strategy, any other argument
    then fails with a [TypeError] in [_dispose]. *)
Theorem rejected_object_is_remembered st o :
  _obj st = None ->
  accepted o = false ->
  exists st',
    transform 2 (Some o) st = Some (st', Throw (InvalidPipeArgument (ident o))) /\
    _obj st' = Some o /\
    transform 2 (Some o) st' = Some (st', Normal (_latestValue st)) /\
    (_strategy st = None ->
     forall obj, differs obj o = true ->
       transform 2 obj st' = Some (st', Throw TypeError)).
Proof.
  intros Ho Hacc.
  rewrite (transform_unbound 1 (Some o) st Ho). unfold andThen.
  rewrite (subscribe_rejected o st Hacc).
  eexists. split; [reflexivity|]. split; [reflexivity|]. split.
  - erewrite transform_bound; [|simpl; reflexivity]. simpl.
    by rewrite sameObject_refl.
  - intros Hst obj Hdiff.
    erewrite transform_bound; [|simpl; reflexivity].
    rewrite Hdiff. unfold _dispose. simpl. rewrite Hst. reflexivity.
Qed.

(** X16: [ngOnDestroy] on a settled pipe never throws; it releases the
    bound object and leaves the pipe unbound with no value. Destroying again
    does nothing, and a value arriving afterwards from any object is
    dropped without marking the view. *)
Theorem ngOnDestroy_unbinds_for_good st :
  Settled st ->
  exists st',
    ngOnDestroy st = (st', Normal tt) /\
    trace st' = trace st ++ released st /\
    _obj st' = None /\ _latestValue st' = None /\ _subscription st' = None /\
    ngOnDestroy st' = (st', Normal tt) /\
    (forall o value, _updateLatestValue o value st' = (st', Normal tt)).
Proof.
  intros Hs. rewrite (ngOnDestroy_settled st Hs).
  eexists. split; [reflexivity|]. repeat split; reflexivity.
Qed.

End Facts.

Lemma onTicker_settled : Settled AsyncPipeExamples.onTicker.
Proof. right. repeat split; reflexivity. Qed.

Lemma transform_keeps_settled_witness :
  Settled AsyncPipeExamples.onTicker /\
  Some 8 = _latestValue AsyncPipeExamples.onTicker.
Proof.
  apply (transform_keeps_settled newPipe (Some AsyncPipeExamples.ticker)
           AsyncPipeExamples.onTicker (Some 8));
    [split; reflexivity | reflexivity].
Defined.

Lemma transform_throws_only_invalid_argument_witness :
  exists o,
    Some AsyncPipeExamples.bogus = Some o /\ hasThen o = false /\
    hasSubscribe o = false /\
    InvalidPipeArgument 3 = InvalidPipeArgument (ident o).
Proof.
  apply (transform_throws_only_invalid_argument newPipe
           (Some AsyncPipeExamples.bogus) AsyncPipeExamples.onBogus
           (InvalidPipeArgument 3));
    [split; reflexivity | reflexivity].
Defined.

Lemma transform_again_changes_nothing_witness :
  transform 2 (Some AsyncPipeExamples.ticker) AsyncPipeExamples.onTicker =
  Some (AsyncPipeExamples.onTicker, Normal (Some 8)).
Proof.
  apply (transform_again_changes_nothing newPipe AsyncPipeExamples.ticker).
  reflexivity.
Defined.

Lemma transform_null_unbinds_witness :
  transform 2 None AsyncPipeExamples.onTicker =
  Some (mkState None None None (Some ObservableStrategy)
          [Subscribe 1; MarkForCheck; MarkForCheck; Unsubscribe 1],
        Normal None).
Proof.
  apply (transform_null_unbinds AsyncPipeExamples.onTicker).
  right. repeat split; reflexivity.
Defined.

Lemma transform_rebinds_witness :
  transform 2 (Some AsyncPipeExamples.promised) AsyncPipeExamples.onTicker =
  Some (AsyncPipeExamples.onPromised, Normal None).
Proof.
  apply (transform_rebinds AsyncPipeExamples.onTicker AsyncPipeExamples.promised).
  - right. repeat split; reflexivity.
  - reflexivity.
  - intros current [= <-]. discriminate.
Defined.

Lemma foreign_values_are_ignored_witness :
  _updateLatestValue AsyncPipeExamples.ticker (Some 9) AsyncPipeExamples.onPromised
  = (AsyncPipeExamples.onPromised, Normal tt).
Proof.
  apply (foreign_values_are_ignored AsyncPipeExamples.onTicker
           AsyncPipeExamples.promised AsyncPipeExamples.onPromised None).
  - reflexivity.
  - discriminate.
Defined.

Lemma delivered_value_is_returned_witness :
  exists st'',
    _updateLatestValue AsyncPipeExamples.promised (Some 5)
      AsyncPipeExamples.onPromised = (st'', Normal tt) /\
    trace st'' = trace AsyncPipeExamples.onPromised ++ [MarkForCheck] /\
    transform 2 (Some AsyncPipeExamples.promised) st'' = Some (st'', Normal (Some 5)).
Proof.
  apply (delivered_value_is_returned AsyncPipeExamples.onTicker
           AsyncPipeExamples.promised AsyncPipeExamples.onPromised None).
  reflexivity.
Defined.

Lemma no_subscription_leak_witness :
  exists st',
    ngOnDestroy AsyncPipeExamples.onTicker = (st', Normal tt) /\
    openSubscriptions (trace st') [] = [].
Proof.
  apply (no_subscription_leak
           [Some AsyncPipeExamples.ticker; Some AsyncPipeExamples.ticker]).
  reflexivity.
Defined.

Lemma rejected_object_is_remembered_witness :
  exists st',
    transform 2 (Some AsyncPipeExamples.bogus) newPipe
      = Some (st', Throw (InvalidPipeArgument 3)) /\
    _obj st' = Some AsyncPipeExamples.bogus /\
    transform 2 (Some AsyncPipeExamples.bogus) st' = Some (st', Normal None) /\
    (_strategy (newPipe (Value := Z)) = None ->
     forall obj, differs obj AsyncPipeExamples.bogus = true ->
       transform 2 obj st' = Some (st', Throw TypeError)).
Proof.
  apply (rejected_object_is_remembered newPipe AsyncPipeExamples.bogus);
    reflexivity.
Defined.

Lemma ngOnDestroy_unbinds_for_good_witness :
  exists st',
    ngOnDestroy AsyncPipeExamples.onTicker = (st', Normal tt) /\
    trace st' = trace AsyncPipeExamples.onTicker
                  ++ released AsyncPipeExamples.onTicker /\
    _obj st' = None /\ _latestValue st' = None /\ _subscription st' = None /\
    ngOnDestroy st' = (st', Normal tt) /\
    (forall o value, _updateLatestValue o value st' = (st', Normal tt)).
Proof.
  apply (ngOnDestroy_unbinds_for_good AsyncPipeExamples.onTicker).
  right. repeat split; reflexivity.
Defined.

End AsyncPipeFacts.

(* ===================================================================== *)
(** * Further properties of the position resolver                          *)
(* ===================================================================== *)

Module PositionExtra.
Import PositionResolver PositionFacts.

(** ** What the visitors append *)

Section Appending.
Variable position : Z.
Variable Q : PathEntry -> Prop.
Hypothesis Q_expression : forall node,
  isWithin position (Absolute (AST_sourceSpan node)) = true ->
  isImplicitReceiver node = false ->
  Q (ExpressionNode node).

Lemma Appends_id : Appends Q (fun path => path).
Proof. intros path. exists []. split; [by rewrite app_nil_r | constructor]. Qed.

Lemma Appends_compose f g :
  Appends Q f -> Appends Q g -> Appends Q (fun path => g (f path)).
Proof.
  intros Hf Hg path.
  destruct (Hf path) as (e1 & -> & H1).
  destruct (Hg (path ++ e1)) as (e2 & -> & H2).
  exists (e1 ++ e2). split; [by rewrite app_assoc | by apply Forall_app_2].
Qed.

Lemma visitWith_appends node :
  Appends Q (AST_visit position (unwrapSource node)) ->
  Appends Q (visitWith position (AST_visit position) node).
Proof.
  intros Hn path. unfold visitWith.
  destruct (isWithin position (Absolute (AST_sourceSpan (unwrapSource node))))
    eqn:Hw; simpl; [|apply Appends_id].
  destruct (isImplicitReceiver (unwrapSource node)) eqn:Hi; simpl;
    [apply Appends_id|].
  destruct (Hn (path ++ [ExpressionNode (unwrapSource node)])) as (e & -> & He).
  exists (ExpressionNode (unwrapSource node) :: e).
  split; [by rewrite <- app_assoc|]. constructor; [by apply Q_expression | exact He].
Qed.

Lemma AST_visit_appends node : Appends Q (AST_visit position node).
Proof.
  induction node as [sp | ast sp IH | kind operands sp IH] using AST_nested_ind.
  - apply Appends_id.
  - exact IH.
  - simpl. induction IH as [|o os Ho _ IHos]; simpl.
    + apply Appends_id.
    + refine (Appends_compose _ _ _ IHos).
      apply visitWith_appends. destruct o; exact Ho.
Qed.

Lemma ExpressionVisitor_visit_appends node :
  Appends Q (ExpressionVisitor_visit position node).
Proof. apply visitWith_appends, AST_visit_appends. Qed.

Hypothesis Q_template : forall node,
  contains position node = true -> Q (TemplateNode node).

Lemma visitAll_appends (v : Node -> Path -> Path) nodes :
  Forall (fun n => Appends Q (v n)) nodes -> Appends Q (visitAll v nodes).
Proof.
  unfold visitAll. induction 1 as [|n ns Hn _ IH]; simpl.
  - apply Appends_id.
  - exact (Appends_compose _ _ Hn IH).
Qed.

Lemma visit_appends node : Appends Q (visit position node).
Proof.
  induction node as [node IH] using Node_nested_ind. intros path.
  rewrite visit_eq.
  destruct (contains position node) eqn:Hc; [|apply Appends_id].
  destruct (largerThanLast node path); [apply Appends_id|].
  assert (Hpush : forall f, Appends Q f ->
            exists ext, f (path ++ [TemplateNode node]) = path ++ ext /\ Forall Q ext).
  { intros f Hf. destruct (Hf (path ++ [TemplateNode node])) as (e & -> & He).
    exists (TemplateNode node :: e).
    split; [by rewrite <- app_assoc|]. constructor; [by apply Q_template | exact He]. }
  pose proof (Node_visit_subNodes position (visit position) node
                (path ++ [TemplateNode node])) as Hn.
  destruct node; try (rewrite Hn; apply Hpush; by apply visitAll_appends);
    simpl; try (apply (Hpush (fun p => p)), Appends_id).
  - apply Hpush, ExpressionVisitor_visit_appends.
  - unfold visitBoundEvent.
    destruct (isTwoWayBinding name (path ++ [TemplateNode (BoundEvent name handler sourceSpan kv)])).
    + rewrite removelast_last. apply Appends_id.
    + apply Hpush, ExpressionVisitor_visit_appends.
  - apply Hpush, ExpressionVisitor_visit_appends.
Qed.

End Appending.

Lemma Reported_expression position node :
  isWithin position (Absolute (AST_sourceSpan node)) = true ->
  isImplicitReceiver node = false ->
  Reported position (ExpressionNode node).
Proof. by split. Qed.

Lemma candidateAt_reported ast position candidate :
  candidateAt ast position = Some candidate -> Reported position candidate.
Proof.
  unfold candidateAt.
  assert (Hall : Appends (Reported position) (visitAll (visit position) ast)).
  { apply visitAll_appends, Forall_forall. intros n _.
    apply visit_appends; [apply Reported_expression | by intros]. }
  destruct (Hall []) as (e & -> & He). simpl.
  intros Hl. apply last_Some in Hl as [l' ->].
  apply Forall_app in He as [_ He]. by inversion He.
Qed.

(** ** The earlier part of the path does not matter *)

Lemma no_attribute_no_pair name (entries : Path) :
  Forall (fun e => isBoundAttribute e = false) entries ->
  existsb (pairsWith name) entries = false.
Proof.
  induction 1 as [|e es He _ IH]; simpl; [reflexivity|].
  rewrite IH, orb_false_r.
  destruct e as [n|a]; [|reflexivity].
  destruct n; simpl in *; try reflexivity. discriminate.
Qed.

Section Framing.
Variable position : Z.
Variable prefix : Path.
Hypothesis prefix_no_attribute :
  Forall (fun e => isBoundAttribute e = false) prefix.

Lemma visitWith_frame node :
  (forall path, AST_visit position (unwrapSource node) (prefix ++ path)
                = prefix ++ AST_visit position (unwrapSource node) path) ->
  forall path,
    visitWith position (AST_visit position) node (prefix ++ path)
    = prefix ++ visitWith position (AST_visit position) node path.
Proof.
  intros Hn path. unfold visitWith.
  destruct (isWithin position (Absolute (AST_sourceSpan (unwrapSource node)))
            && negb (isImplicitReceiver (unwrapSource node))); [|reflexivity].
  by rewrite <- app_assoc, Hn.
Qed.

Lemma AST_visit_frame node : forall path,
  AST_visit position node (prefix ++ path) = prefix ++ AST_visit position node path.
Proof.
  induction node as [sp | ast sp IH | kind operands sp IH] using AST_nested_ind;
    intros path.
  - reflexivity.
  - apply IH.
  - simpl. revert path. induction IH as [|o os Ho _ IHos]; intros path; simpl.
    + reflexivity.
    + rewrite visitWith_frame; [apply IHos|]. destruct o; exact Ho.
Qed.

Lemma ExpressionVisitor_visit_frame node path :
  ExpressionVisitor_visit position node (prefix ++ path)
  = prefix ++ ExpressionVisitor_visit position node path.
Proof. apply visitWith_frame. intros p. apply AST_visit_frame. Qed.

Lemma isTwoWayBinding_frame name path :
  isTwoWayBinding name (prefix ++ path) = isTwoWayBinding name path.
Proof.
  unfold isTwoWayBinding.
  by rewrite existsb_app, (no_attribute_no_pair name prefix prefix_no_attribute).
Qed.

Lemma largerThanLast_frame node path :
  path <> [] -> largerThanLast node (prefix ++ path) = largerThanLast node path.
Proof.
  intros Hne. unfold largerThanLast. rewrite last_app.
  destruct (last path) eqn:Hl; [reflexivity|].
  by apply last_None in Hl.
Qed.

Lemma visitAll_frame (v : Node -> Path -> Path) nodes :
  Forall (fun n => forall path, path <> [] ->
                   v n (prefix ++ path) = prefix ++ v n path) nodes ->
  Forall (fun n => Extends position (v n)) nodes ->
  forall path, path <> [] ->
    visitAll v nodes (prefix ++ path) = prefix ++ visitAll v nodes path.
Proof.
  unfold visitAll. induction 1 as [|n ns Hn _ IH]; intros Hext path Hne; simpl.
  - reflexivity.
  - inversion Hext as [|? ? Hen Hens]; subst.
    rewrite Hn by exact Hne. apply IH; [exact Hens|].
    destruct (Hen path) as (e & -> & _).
    destruct path; [done | discriminate].
Qed.

Lemma Node_visit_frame_with (v : Node -> Path -> Path) node :
  Forall (fun n => forall path, path <> [] ->
                   v n (prefix ++ path) = prefix ++ v n path) (subNodes node) ->
  Forall (fun n => Extends position (v n)) (subNodes node) ->
  forall path, path <> [] ->
    Node_visit position v node (prefix ++ path)
    = prefix ++ Node_visit position v node path.
Proof.
  intros Hframe Hext path Hne.
  pose proof (Node_visit_subNodes position v node (prefix ++ path)) as H1.
  pose proof (Node_visit_subNodes position v node path) as H2.
  destruct node; try (rewrite H1, H2; by apply visitAll_frame);
    simpl; try reflexivity.
  - apply ExpressionVisitor_visit_frame.
  - unfold visitBoundEvent. rewrite isTwoWayBinding_frame.
    destruct (isTwoWayBinding name path).
    + destruct (exists_last Hne) as (l & x & ->).
      by rewrite app_assoc, !removelast_last.
    + apply ExpressionVisitor_visit_frame.
  - apply ExpressionVisitor_visit_frame.
Qed.

Lemma visit_frame node : forall path,
  path <> [] ->
  visit position node (prefix ++ path) = prefix ++ visit position node path.
Proof.
  induction node as [node IH] using Node_nested_ind. intros path Hne.
  rewrite !visit_eq, largerThanLast_frame by exact Hne.
  destruct (contains position node); [|reflexivity].
  destruct (largerThanLast node path); [reflexivity|].
  rewrite <- app_assoc. apply Node_visit_frame_with.
  - exact IH.
  - apply Forall_forall. intros n _. apply visit_extends.
  - destruct path; discriminate.
Qed.

Lemma Node_visit_frame node path :
  path <> [] ->
  Node_visit position (visit position) node (prefix ++ path)
  = prefix ++ Node_visit position (visit position) node path.
Proof.
  apply Node_visit_frame_with.
  - apply Forall_forall. intros n _. apply visit_frame.
  - apply Forall_forall. intros n _. apply visit_extends.
Qed.

End Framing.

Lemma visitAll_app (v : Node -> Path -> Path) l1 l2 path :
  visitAll v (l1 ++ l2) path = visitAll v l2 (visitAll v l1 path).
Proof. unfold visitAll. apply fold_left_app. Qed.

Lemma visitAll_filter position nodes : forall path,
  visitAll (visit position) (List.filter (contains position) nodes) path
  = visitAll (visit position) nodes path.
Proof.
  unfold visitAll. induction nodes as [|n ns IH]; intros path; simpl;
    [reflexivity|].
  destruct (contains position n) eqn:Hc; simpl; [apply IH|].
  by rewrite (visit_outside position n path Hc).
Qed.

Lemma findNodeAtPosition_candidate ast1 ast2 position :
  candidateAt ast1 position = candidateAt ast2 position ->
  findNodeAtPosition ast1 position = findNodeAtPosition ast2 position.
Proof. unfold findNodeAtPosition. by intros ->. Qed.

(** ** Properties *)

(** X17: the lookup is sound. Whatever [findNodeAtPosition] returns is the
    last entry of the visitor's path, and it is a template node whose tested
    span contains the offset, or an expression node whose span contains the
    offset and that is not the implicit receiver. *)
Theorem findNodeAtPosition_sound ast position entry :
  findNodeAtPosition ast position = Some entry ->
  candidateAt ast position = Some entry /\ Reported position entry.
Proof.
  unfold findNodeAtPosition.
  destruct (candidateAt ast position) as [candidate|] eqn:Hcand; [|discriminate].
  pose proof (candidateAt_reported ast position candidate Hcand) as Hrep.
  destruct (isTemplateNodeWithKeyAndValue candidate) as [[ks vs]|].
  - destruct (negb (isWithin position (Parse ks)) &&
              match vs with
              | Some valueSpan => negb (isWithin position (Parse valueSpan))
              | None => false
              end); [discriminate|].
    intros [= <-]. auto.
  - intros [= <-]. auto.
Qed.

Lemma findNodeAtPosition_sound_witness :
  candidateAt [PositionExamples.elemP] 13
    = Some (ExpressionNode PositionExamples.readName) /\
  Reported 13 (ExpressionNode PositionExamples.readName).
Proof.
  apply (findNodeAtPosition_sound [PositionExamples.elemP] 13).
  reflexivity.
Defined.

(** X18: the event half of a two-way binding never shows. When a bound
    attribute named [n] is on the path, visiting a bound event named
    [n + 'Change'] leaves the path exactly as it was, wherever the event's
    span lies: the event is skipped, or pushed and popped again. *)
Theorem paired_event_leaves_path position name handler sourceSpan kv path :
  isTwoWayBinding name path = true ->
  visit position (BoundEvent name handler sourceSpan kv) path = path.
Proof.
  intros Hpair. rewrite visit_eq.
  destruct (contains position (BoundEvent name handler sourceSpan kv));
    [|reflexivity].
  destruct (largerThanLast (BoundEvent name handler sourceSpan kv) path);
    [reflexivity|].
  simpl. unfold visitBoundEvent, isTwoWayBinding in *.
  rewrite existsb_app, Hpair. simpl. apply removelast_last.
Qed.

Lemma paired_event_leaves_path_witness :
  visit 12 PositionExamples.modelEvent
    [TemplateNode PositionExamples.elemInput;
     TemplateNode PositionExamples.modelAttr]
  = [TemplateNode PositionExamples.elemInput;
     TemplateNode PositionExamples.modelAttr] /\
  findNodeAtPosition [PositionExamples.elemInput] 12
  = Some (TemplateNode PositionExamples.modelAttr).
Proof.
  split; [|reflexivity].
  apply (paired_event_leaves_path 12 "ngModelChange").
  reflexivity.
Defined.

(** X19: nodes that do not contain the offset are transparent. Dropping
    from the list of roots every node whose tested span does not contain the
    offset changes neither the path nor the result of the lookup. *)
Theorem findNodeAtPosition_ignores_outside_roots ast position :
  findNodeAtPosition (List.filter (contains position) ast) position
  = findNodeAtPosition ast position.
Proof.
  apply findNodeAtPosition_candidate. unfold candidateAt.
  by rewrite visitAll_filter.
Qed.

(** X20: the lookup descends. When a container node (element, template,
    content, ICU) contains the offset and exactly one of its sub-nodes does
    too, that sub-node's span being no longer than the container's, the
    lookup on the container gives what the lookup on that sub-node alone
    gives. *)
Theorem lookup_descends_into_only_match position container pre node post :
  isContainer container = true ->
  subNodes container = pre ++ node :: post ->
  contains position container = true ->
  contains position node = true ->
  spanLength (getSpanIncludingEndTag node)
    <= spanLength (getSpanIncludingEndTag container) ->
  Forall (fun n => contains position n = false) pre ->
  Forall (fun n => contains position n = false) post ->
  candidateAt [container] position = candidateAt [node] position /\
  findNodeAtPosition [container] position = findNodeAtPosition [node] position.
Proof.
  intros Hcont Hsub Hc Hn Hlen Hpre Hpost.
  assert (Hcand : candidateAt [container] position = candidateAt [node] position).
  { unfold candidateAt.
    change (visitAll (visit position) [container] [])
      with (visit position container []).
    change (visitAll (visit position) [node] []) with (visit position node []).
    rewrite (visit_eq position container), Hc, largerThanLast_nil.
    assert (Hvisit : Node_visit position (visit position) container
                       ([] ++ [TemplateNode container])
                     = visit position node [TemplateNode container]).
    { pose proof (Node_visit_subNodes position (visit position) container
                    ([] ++ [TemplateNode container])) as Hnv.
      destruct container; try discriminate; rewrite Hnv, Hsub;
        rewrite visitAll_app, (visitAll_outside position pre) by exact Hpre;
        change (visitAll (visit position) (node :: post) ?p)
          with (visitAll (visit position) post (visit position node p));
        by rewrite (visitAll_outside position post). }
    rewrite Hvisit, !(visit_eq position node), Hn, largerThanLast_nil.
    assert (Hfit : largerThanLast node [TemplateNode container] = false).
    { rewrite (largerThanLast_last node [TemplateNode container]
                 (TemplateNode container) eq_refl).
      rewrite Z.gtb_ltb. apply Z.ltb_ge. exact Hlen. }
    rewrite Hfit.
    change ([TemplateNode container] ++ [TemplateNode node])
      with ([TemplateNode container] ++ ([] ++ [TemplateNode node])).
    rewrite (Node_visit_frame position [TemplateNode container]);
      [| constructor; [by destruct container | constructor] | discriminate].
    rewrite last_app.
    destruct (visit_root position node Hn) as (e & He & _).
    rewrite (visit_eq position node), Hn, largerThanLast_nil in He.
    rewrite He. destruct (last (TemplateNode node :: e)) eqn:Hl; [reflexivity|].
    by apply last_None in Hl. }
  split; [exact Hcand | by apply findNodeAtPosition_candidate].
Qed.

(** In [<div>hi</div>] at offset 6 the lookup on the element is the lookup
    on its text. *)
Lemma lookup_descends_into_only_match_witness :
  candidateAt [PositionExamples.divHi] 6 = candidateAt [PositionExamples.textHi] 6 /\
  findNodeAtPosition [PositionExamples.divHi] 6
  = findNodeAtPosition [PositionExamples.textHi] 6.
Proof.
  apply (lookup_descends_into_only_match 6 PositionExamples.divHi []
           PositionExamples.textHi []);
    try reflexivity; try constructor.
  vm_compute. discriminate.
Defined.

(** X21: inside bound text the lookup answers with the expression. For a
    bound text node alone, at an offset its span contains: when the bound
    expression (unwrapped from its source wrapper) contains the offset and
    is not the implicit receiver, the result is an expression node, never
    the text node; when the expression does not contain the offset, the
    result is the text node itself. *)
Theorem bound_text_resolves_to_expression position value sourceSpan :
  contains position (BoundText value sourceSpan) = true ->
  (isWithin position (Absolute (AST_sourceSpan (unwrapSource value))) = true ->
   isImplicitReceiver (unwrapSource value) = false ->
   exists node,
     findNodeAtPosition [BoundText value sourceSpan] position
       = Some (ExpressionNode node) /\
     Reported position (ExpressionNode node)) /\
  (isWithin position (Absolute (AST_sourceSpan (unwrapSource value))) = false ->
   findNodeAtPosition [BoundText value sourceSpan] position
     = Some (TemplateNode (BoundText value sourceSpan))).
Proof.
  intros Hc.
  assert (Hpath : visitAll (visit position) [BoundText value sourceSpan] []
                  = ExpressionVisitor_visit position value
                      [TemplateNode (BoundText value sourceSpan)]).
  { change (visitAll (visit position) [BoundText value sourceSpan] [])
      with (visit position (BoundText value sourceSpan) []).
    by rewrite visit_eq, Hc, largerThanLast_nil. }
  unfold findNodeAtPosition, candidateAt. rewrite Hpath.
  unfold ExpressionVisitor_visit, visitWith. split.
  - intros Hw Hi. rewrite Hw, Hi. simpl.
    set (Q := fun entry => isTemplateNode entry = false /\ Reported position entry).
    assert (HQ : forall node,
              isWithin position (Absolute (AST_sourceSpan node)) = true ->
              isImplicitReceiver node = false -> Q (ExpressionNode node)).
    { intros node H1 H2. split; [reflexivity | by split]. }
    destruct (AST_visit_appends position Q HQ (unwrapSource value)
                [TemplateNode (BoundText value sourceSpan);
                 ExpressionNode (unwrapSource value)]) as (e & -> & He).
    assert (Hlast : exists entry,
              last ([TemplateNode (BoundText value sourceSpan);
                     ExpressionNode (unwrapSource value)] ++ e) = Some entry /\
              Q entry).
    { destruct (exists_last (l := ExpressionNode (unwrapSource value) :: e))
        as (l' & x & Hx); [discriminate|].
      exists x. split.
      - change ([TemplateNode (BoundText value sourceSpan);
                 ExpressionNode (unwrapSource value)] ++ e)
          with ([TemplateNode (BoundText value sourceSpan)]
                  ++ (ExpressionNode (unwrapSource value) :: e)).
        rewrite Hx, app_assoc. apply last_snoc.
      - assert (HF : Forall Q (ExpressionNode (unwrapSource value) :: e))
          by (constructor; [by apply HQ | exact He]).
        rewrite Hx in HF. apply Forall_app in HF as [_ HF]. by inversion HF. }
    destruct Hlast as ([n | a] & -> & Htn & Hrep); [discriminate|].
    exists a. split; [reflexivity | exact Hrep].
  - intros Hw. rewrite Hw. reflexivity.
Qed.

Lemma bound_text_resolves_to_expression_witness :
  (isWithin 4 (Absolute (AST_sourceSpan (unwrapSource PositionExamples.exprTitle)))
     = true ->
   isImplicitReceiver (unwrapSource PositionExamples.exprTitle) = false ->
   exists node,
     findNodeAtPosition [PositionExamples.greeting] 4 = Some (ExpressionNode node) /\
     Reported 4 (ExpressionNode node)) /\
  (isWithin 4 (Absolute (AST_sourceSpan (unwrapSource PositionExamples.exprTitle)))
     = false ->
   findNodeAtPosition [PositionExamples.greeting] 4
     = Some (TemplateNode PositionExamples.greeting)).
Proof.
  apply (bound_text_resolves_to_expression 4 PositionExamples.exprTitle
           (PositionExamples.span 0 11)).
  reflexivity.
Defined.

End PositionExtra.

(* ===================================================================== *)
(** * Further properties of the translation message serializer             *)
(* ===================================================================== *)

Module SerializerExtra.
Import TranslationSerializer SerializerFacts.

(** X22: the result carries a translation or a serialize error, never both
    and never neither: [translation] is null exactly when [serializeErrors]
    is not empty, and [serializeErrors] never holds more than one error. *)
Theorem translation_or_one_serialize_error
    (Element HtmlNode ParseError ParsedTranslation : Type)
    (MessageSerializerConfig MessageSerializer : Type)
    (parseInnerRange : Element -> list HtmlNode * list ParseError)
    (newMessageSerializer :
       MessageSerializerConfig -> Completion ParseError MessageSerializer)
    (serialize :
       MessageSerializer -> list HtmlNode -> Completion ParseError ParsedTranslation)
    (element : Element) (config : MessageSerializerConfig) :
  (translation
     (serializeTranslationMessage Element HtmlNode ParseError ParsedTranslation
        MessageSerializerConfig MessageSerializer
        parseInnerRange newMessageSerializer serialize element config) = None <->
   serializeErrors
     (serializeTranslationMessage Element HtmlNode ParseError ParsedTranslation
        MessageSerializerConfig MessageSerializer
        parseInnerRange newMessageSerializer serialize element config) <> []) /\
  (length
     (serializeErrors
        (serializeTranslationMessage Element HtmlNode ParseError ParsedTranslation
           MessageSerializerConfig MessageSerializer
           parseInnerRange newMessageSerializer serialize element config))
   <= 1)%nat.
Proof.
  pose proof (serializeMessage_cases Element HtmlNode ParseError ParsedTranslation
                MessageSerializerConfig MessageSerializer
                parseInnerRange newMessageSerializer serialize element config)
    as Hcases.
  cbv zeta in Hcases.
  destruct (serialization Element HtmlNode ParseError ParsedTranslation
              MessageSerializerConfig MessageSerializer
              parseInnerRange newMessageSerializer serialize element config)
    as [t|e]; destruct Hcases as [-> ->]; simpl; split; try lia.
  - split; [discriminate | by intros H].
  - split; [discriminate | reflexivity].
Qed.

(** X23: parse errors do not hold serialization back and do not leak into
    its outcome. Two parsers that yield the same root nodes for the element,
    whatever parse errors each reports, lead to the same [translation] and
    the same [serializeErrors]. *)
Theorem serialization_ignores_parse_errors
    (Element HtmlNode ParseError ParsedTranslation : Type)
    (MessageSerializerConfig MessageSerializer : Type)
    (parse1 parse2 : Element -> list HtmlNode * list ParseError)
    (newMessageSerializer :
       MessageSerializerConfig -> Completion ParseError MessageSerializer)
    (serialize :
       MessageSerializer -> list HtmlNode -> Completion ParseError ParsedTranslation)
    (element : Element) (config : MessageSerializerConfig) :
  fst (parse1 element) = fst (parse2 element) ->
  translation
    (serializeTranslationMessage Element HtmlNode ParseError ParsedTranslation
       MessageSerializerConfig MessageSerializer
       parse1 newMessageSerializer serialize element config)
  = translation
      (serializeTranslationMessage Element HtmlNode ParseError ParsedTranslation
         MessageSerializerConfig MessageSerializer
         parse2 newMessageSerializer serialize element config) /\
  serializeErrors
    (serializeTranslationMessage Element HtmlNode ParseError ParsedTranslation
       MessageSerializerConfig MessageSerializer
       parse1 newMessageSerializer serialize element config)
  = serializeErrors
      (serializeTranslationMessage Element HtmlNode ParseError ParsedTranslation
         MessageSerializerConfig MessageSerializer
         parse2 newMessageSerializer serialize element config).
Proof.
  unfold serializeTranslationMessage.
  destruct (parse1 element) as [nodes1 errors1],
           (parse2 element) as [nodes2 errors2].
  simpl. intros ->.
  destruct (newMessageSerializer config) as [serializer|e]; simpl;
    [|split; reflexivity].
  destruct (serialize serializer nodes2); simpl; split; reflexivity.
Qed.

(** The toy parser against one that reports nothing: same nodes, same
    outcome. *)
Lemma serialization_ignores_parse_errors_witness :
  translation (SerializerExamples.toyMessage ["Hello"; "?"; "world"])
  = translation
      (serializeTranslationMessage (list string) string string string bool bool
         (fun element => (fst (SerializerExamples.toyParse element), []))
         SerializerExamples.toyNew SerializerExamples.toySerialize
         ["Hello"; "?"; "world"] true) /\
  serializeErrors (SerializerExamples.toyMessage ["Hello"; "?"; "world"])
  = serializeErrors
      (serializeTranslationMessage (list string) string string string bool bool
         (fun element => (fst (SerializerExamples.toyParse element), []))
         SerializerExamples.toyNew SerializerExamples.toySerialize
         ["Hello"; "?"; "world"] true).
Proof.
  apply (serialization_ignores_parse_errors (list string) string string string
           bool bool SerializerExamples.toyParse
           (fun element => (fst (SerializerExamples.toyParse element), []))).
  reflexivity.
Defined.

End SerializerExtra.
